(** * aedis: the RESP3 sigil tables and the request queue of [connection]

    A shallow embedding of

    - [src/include/aedis/resp3/impl/type.ipp]: [to_code], [to_type] and the
      other classifiers of the RESP3 type enum;
    - [src/include/aedis/connection.hpp]: the queue operations of the
      [connection] class ([cancel], [cancel_push_requests],
      [add_request_info], [coalesce_requests], [async_exec]);
    - [src/include/aedis/command.hpp] and [src/examples/basic3.cpp]: the
      command enum and the example that sends HELLO, PING and QUIT one
      after the other ([prepare_next], [process_response], [ping]);

    together with the parts of the library that the connection relies on but
    that are declared in other headers (the request class, the error enum, the
    composed operations [exec_op] and [reader_op]); those are modelled from the
    specification and marked as such. *)

From Stdlib Require Import ZArith Ascii String List Lia.
From stdpp Require Import base option list gmap strings pretty.

Open Scope Z_scope.

(** ** Assertions, exceptions and [std::size_t] *)

(** A call either returns, stops at a failing [BOOST_ASSERT] (the process
    aborts), or leaves through [std::out_of_range] (thrown by [deque::at]). *)
Inductive outcome (A : Type) : Type :=
  | Done (a : A)
  | AssertionFailed
  | OutOfRange.
Arguments Done {A} a.
Arguments AssertionFailed {A}.
Arguments OutOfRange {A}.

#[global] Instance outcome_ret : MRet outcome := fun A a => Done a.
#[global] Instance outcome_bind : MBind outcome := fun A B k m =>
  match m with
  | Done a => k a
  | AssertionFailed => AssertionFailed
  | OutOfRange => OutOfRange
  end.

(** [BOOST_ASSERT(e)]: compiled out under [NDEBUG], otherwise aborts when [e]
    is false. *)
Definition BOOST_ASSERT (ndebug : bool) (e : bool) : outcome unit :=
  if ndebug || e then Done tt else AssertionFailed.

(** [std::size_t] is a 64 bit unsigned integer; [+=] wraps. *)
Definition size_max : Z := 2 ^ 64.
Definition wrap (z : Z) : Z := z mod size_max.

(** ** RESP3 types ([resp3/impl/type.ipp]) *)

Module Resp3.

(** The enumerators of [resp3::type], as the switches of [type.ipp] list them;
    [invalid] is the value every [default:] branch stands for. *)
Inductive type : Type :=
  | array | push | set | map | attribute
  | simple_string | simple_error | number | doublean | boolean
  | big_number | null | blob_error | verbatim_string | blob_string
  | streamed_string_part | invalid.

#[global] Instance type_eq_dec : EqDecision type.
Proof. solve_decision. Defined.

Definition to_string (t : type) : string :=
  match t with
  | array => "array"
  | push => "push"
  | set => "set"
  | map => "map"
  | attribute => "attribute"
  | simple_string => "simple_string"
  | simple_error => "simple_error"
  | number => "number"
  | doublean => "doublean"
  | boolean => "boolean"
  | big_number => "big_number"
  | null => "null"
  | blob_error => "blob_error"
  | verbatim_string => "verbatim_string"
  | blob_string => "blob_string"
  | streamed_string_part => "streamed_string_part"
  | invalid => "invalid"
  end.

(** [operator<<(std::ostream&, type)]: the stream is the text written so
    far. *)
Definition write_type (os : string) (t : type) : string :=
  os +:+ to_string t.

Definition is_aggregate (t : type) : bool :=
  match t with
  | array | push | set | map | attribute => true
  | _ => false
  end.

Definition element_multiplicity (t : type) : Z :=
  match t with
  | map | attribute => 2
  | _ => 1
  end.

Definition to_code (ndebug : bool) (t : type) : outcome ascii :=
  match t with
  | blob_error => Done "!"%char
  | verbatim_string => Done "="%char
  | blob_string => Done "$"%char
  | streamed_string_part => Done ";"%char
  | simple_error => Done "-"%char
  | number => Done ":"%char
  | doublean => Done ","%char
  | boolean => Done "#"%char
  | big_number => Done "("%char
  | simple_string => Done "+"%char
  | null => Done "_"%char
  | push => Done ">"%char
  | set => Done "~"%char
  | array => Done "*"%char
  | attribute => Done "|"%char
  | map => Done "%"%char
  | invalid => BOOST_ASSERT ndebug false;; Done " "%char
  end.

Definition to_type (c : ascii) : type :=
  match c with
  | "!"%char => blob_error
  | "="%char => verbatim_string
  | "$"%char => blob_string
  | ";"%char => streamed_string_part
  | "-"%char => simple_error
  | ":"%char => number
  | ","%char => doublean
  | "#"%char => boolean
  | "("%char => big_number
  | "+"%char => simple_string
  | "_"%char => null
  | ">"%char => push
  | "~"%char => set
  | "*"%char => array
  | "|"%char => attribute
  | "%"%char => map
  | _ => invalid
  end.

(** The type/sigil table of section 6 of the specification, row by row. *)
Definition spec_sigil_table : list (type * ascii) :=
  [ (blob_error, "!"%char); (verbatim_string, "="%char);
    (blob_string, "$"%char); (streamed_string_part, ";"%char);
    (simple_error, "-"%char); (number, ":"%char); (doublean, ","%char);
    (boolean, "#"%char); (big_number, "("%char); (simple_string, "+"%char);
    (null, "_"%char); (push, ">"%char); (set, "~"%char); (array, "*"%char);
    (attribute, "|"%char); (map, "%"%char) ].

Definition table_types : list type := List.map fst spec_sigil_table.
Definition table_bytes : list ascii := List.map snd spec_sigil_table.

(** A node of the response tree ([resp3/node.hpp]). *)
Record node : Type := mk_node {
  size : Z;
  depth : Z;
  data_type : type;
  data : string
}.

End Resp3.

(** ** Requests, errors and adapters *)

Module Request.

(** Modelled from the spec: the per-request configuration of
    [resp3::request] ([resp3/request.hpp] is not among the sources; the tests
    set these flags through [get_config()]). *)
Record config : Type := mk_config {
  coalesce : bool;
  cancel_on_connection_lost : bool;
  retry_on_connection_lost : bool;
  cancel_if_not_connected : bool;
  hello_with_priority : bool
}.

(** Modelled from the spec: the request class, an ordered list of commands
    with one pre-serialised payload.  [size] is the number of top-level
    frames the request expects, [close_on_run_completion] the member that
    [connection::cancel] reads. *)
Record request : Type := mk_request {
  commands : list string;
  payload : string;
  size : Z;
  cfg : config;
  close_on_run_completion : bool
}.

(** A request with no command yet. *)
Definition new_request (f : config) : request :=
  {| commands := []; payload := ""; size := 0; cfg := f;
     close_on_run_completion := false |}.

Definition crlf : string := String "013" (String "010" "").

(** Modelled from the spec: [add_header] and [add_bulk] are declared in
    [resp3/detail/composer.hpp] and defined elsewhere; a command is the RESP
    array [*<N>\r\n] followed by [N] bulk strings [$<len>\r\n<bytes>\r\n]. *)
Definition add_header (to : string) (n : nat) : string :=
  to +:+ "*" +:+ pretty n +:+ crlf.

(** Modelled from the spec: one bulk string, [$<len>\r\n<bytes>\r\n]
    ([add_bulk] is declared in [resp3/detail/composer.hpp]). *)
Definition add_bulk (to : string) (param : string) : string :=
  to +:+ "$" +:+ pretty (String.length param) +:+ crlf +:+ param +:+ crlf.

(** Modelled from the spec: [has_push_response] is declared in
    [resp3/detail/composer.hpp] and defined elsewhere; the replies of the
    subscription commands arrive as pushes, so those commands expect no
    frame of their own. *)
Definition has_push_response (name : string) : bool :=
  bool_decide (name ∈ ["SUBSCRIBE"; "PSUBSCRIBE"; "UNSUBSCRIBE"]).

(** Modelled from the spec: [request::push] appends one command to the
    payload and increments the size counter. *)
Definition push (name : string) (args : list string) (r : request) : request :=
  {| commands := commands r ++ [name];
     payload := foldl add_bulk (add_header (payload r) (S (length args)))
                      (name :: args);
     size := if has_push_response name then size r else wrap (size r + 1);
     cfg := cfg r;
     close_on_run_completion := close_on_run_completion r |}.

(** Modelled from the spec: whether the first command of the request is
    HELLO, which is what the queue looks at for [hello_with_priority]. *)
Definition begins_with_hello (r : request) : bool :=
  match commands r with
  | name :: _ => bool_decide (name = "HELLO")
  | [] => false
  end.

End Request.

(** Modelled from the spec: the error kinds of section 7 ([aedis/error.hpp]
    is not among the sources). *)
Inductive error : Type :=
  | unknown_type | not_a_number | incompatible_size | exceeds_max_read_size
  | resolve_timeout | connect_timeout | idle_timeout | not_connected
  | operation_aborted | channel_cancelled | eof.

(** Modelled from the spec: what the connection needs of a response adapter
    ([aedis/adapt.hpp] is not among the sources): the highest number of
    commands it accepts. *)
Record adapter : Type := mk_adapter {
  supported_response_size : Z
}.

(** Modelled from the spec: the adapter that ignores every response, which
    [adapt()] without arguments gives; it accepts any number of commands. *)
Definition adapt_ignore : adapter :=
  {| supported_response_size := size_max - 1 |}.

(** ** The connection ([connection.hpp]) *)

Module Config.

(** [connection::config]; durations in milliseconds. *)
Record config : Type := mk_config {
  host : string;
  port : string;
  username : string;
  password : string;
  resolve_timeout : Z;
  connect_timeout : Z;
  ping_interval : Z;
  reconnect_interval : Z;
  max_read_size : Z;
  coalesce_requests : bool;
  enable_events : bool;
  enable_reconnect : bool
}.

Definition default : config :=
  {| host := "127.0.0.1"; port := "6379"; username := ""; password := "";
     resolve_timeout := 10000; connect_timeout := 10000;
     ping_interval := 1000; reconnect_interval := 1000;
     max_read_size := size_max - 1;
     coalesce_requests := true; enable_events := false;
     enable_reconnect := false |}.

End Config.

Module Connection.

Import Request.

(** [connection::operation]. *)
Inductive operation : Type := exec | run | receive_event | receive_push.

(** A [std::shared_ptr<req_info>] is the address of the shared object. *)
Abbreviation ptr := nat.

(** [req_info].  Its [timer] member is an Asio object; it is referred to as
    [info_timer p], [p] being the address of the [req_info]. *)
Record req_info : Type := mk_req_info {
  req : request;
  cmds : Z;
  stop : bool;
  written : bool
}.

(** The Asio objects the connection owns and the calls it makes on them.
    Timers and channels live in Boost.Asio; what the connection does to them
    is the sequence of calls, kept in order in [calls]. *)
Inductive timer : Type :=
  | ping_timer_ | check_idle_timer_ | writer_timer_ | read_timer_
  | info_timer (p : ptr).

Inductive channel : Type := push_channel_ | event_channel_.

Inductive call : Type :=
  | timer_cancel (t : timer)
  | timer_cancel_one (t : timer)
  | channel_cancel (ch : channel).

#[global] Instance timer_eq_dec : EqDecision timer.
Proof. solve_decision. Defined.
#[global] Instance channel_eq_dec : EqDecision channel.
Proof. solve_decision. Defined.
#[global] Instance call_eq_dec : EqDecision call.
Proof. solve_decision. Defined.

(** The stream behind [socket_]. *)
Record stream : Type := mk_stream { is_open : bool }.

(** The data members of [connection] that the queue operations touch.
    [socket_] is a [shared_ptr] ([None] is [nullptr]); [reqs_] holds shared
    pointers into [infos], the objects they point to, which the submitters
    share with the queue. *)
Record connection : Type := mk_connection {
  socket_ : option stream;
  cfg_ : Config.config;
  read_buffer_ : string;
  write_buffer_ : string;
  cmds_ : Z;
  reqs_ : list ptr;
  infos : gmap ptr req_info;
  calls : list call
}.

Definition set_socket (s : option stream) (c : connection) : connection :=
  {| socket_ := s; cfg_ := cfg_ c; read_buffer_ := read_buffer_ c;
     write_buffer_ := write_buffer_ c; cmds_ := cmds_ c; reqs_ := reqs_ c;
     infos := infos c; calls := calls c |}.

Definition set_write_buffer (b : string) (c : connection) : connection :=
  {| socket_ := socket_ c; cfg_ := cfg_ c; read_buffer_ := read_buffer_ c;
     write_buffer_ := b; cmds_ := cmds_ c; reqs_ := reqs_ c;
     infos := infos c; calls := calls c |}.

Definition set_cmds (n : Z) (c : connection) : connection :=
  {| socket_ := socket_ c; cfg_ := cfg_ c; read_buffer_ := read_buffer_ c;
     write_buffer_ := write_buffer_ c; cmds_ := n; reqs_ := reqs_ c;
     infos := infos c; calls := calls c |}.

Definition set_reqs (q : list ptr) (c : connection) : connection :=
  {| socket_ := socket_ c; cfg_ := cfg_ c; read_buffer_ := read_buffer_ c;
     write_buffer_ := write_buffer_ c; cmds_ := cmds_ c; reqs_ := q;
     infos := infos c; calls := calls c |}.

Definition set_infos (h : gmap ptr req_info) (c : connection) : connection :=
  {| socket_ := socket_ c; cfg_ := cfg_ c; read_buffer_ := read_buffer_ c;
     write_buffer_ := write_buffer_ c; cmds_ := cmds_ c; reqs_ := reqs_ c;
     infos := h; calls := calls c |}.

(** One call on an Asio object. *)
Definition invoke (k : call) (c : connection) : connection :=
  {| socket_ := socket_ c; cfg_ := cfg_ c; read_buffer_ := read_buffer_ c;
     write_buffer_ := write_buffer_ c; cmds_ := cmds_ c; reqs_ := reqs_ c;
     infos := infos c; calls := calls c ++ [k] |}.

(** A freshly constructed connection. *)
Definition make_connection (cfg : Config.config) : connection :=
  {| socket_ := None; cfg_ := cfg; read_buffer_ := ""; write_buffer_ := "";
     cmds_ := 0; reqs_ := []; infos := ∅; calls := [] |}.

(** Writes through a shared pointer: [p->stop = true], [p->written = true]. *)
Definition mark_stop (e : req_info) : req_info :=
  {| req := req e; cmds := cmds e; stop := true; written := written e |}.

Definition mark_written (e : req_info) : req_info :=
  {| req := req e; cmds := cmds e; stop := stop e; written := true |}.

Definition update (f : req_info -> req_info) (p : ptr) (c : connection)
  : connection :=
  set_infos (alter f p (infos c)) c.

(** Reads through a shared pointer.  Every pointer of the queue is live (the
    queue shares ownership), so the default of [test] is never taken in a
    state the program reaches; see [queue_live]. *)
Definition test (f : req_info -> bool) (c : connection) (p : ptr) : bool :=
  from_option f false (infos c !! p).

Definition queue_live (c : connection) : Prop :=
  Forall (fun p => is_Some (infos c !! p)) (reqs_ c).

(** [p->req->payload()] and [p->req->size()]. *)
Definition payload_at (c : connection) (p : ptr) : string :=
  from_option (fun e => payload (req e)) "" (infos c !! p).

Definition size_at (c : connection) (p : ptr) : Z :=
  from_option (fun e => size (req e)) 0 (infos c !! p).

(** The two predicates by which [cancel] and [cancel_push_requests] select
    the entries they drop. *)
Definition closes_on_run_completion (c : connection) (p : ptr) : bool :=
  test (fun e => close_on_run_completion (req e)) c p.

Definition written_push (c : connection) (p : ptr) : bool :=
  test (fun e => written e && (size (req e) =? 0)) c p.

(** [std::stable_partition]: the elements satisfying [pred] come first, both
    groups keep their relative order; the result is the rearranged range and
    the position of the first element of the second group. *)
Definition stable_partition {A : Type} (pred : A -> bool) (l : list A)
  : list A * nat :=
  (List.filter pred l ++ List.filter (fun x => negb (pred x)) l,
   length (List.filter pred l)).

(** [connection::cancel]. *)
Definition cancel (op : operation) (c : connection) : Z * connection :=
  match op with
  | exec =>
      let c1 :=
        foldl (fun c e => invoke (timer_cancel_one (info_timer e))
                                 (update mark_stop e c))
              c (reqs_ c) in
      let ret := Z.of_nat (length (reqs_ c1)) in
      (ret, set_reqs [] c1)
  | run =>
      let c1 :=
        match socket_ c with
        | Some _ => set_socket (Some {| is_open := false |}) c
        | None => c
        end in
      let c2 := invoke (timer_cancel read_timer_) c1 in
      let c3 := invoke (timer_cancel check_idle_timer_) c2 in
      let c4 := invoke (timer_cancel writer_timer_) c3 in
      let c5 := invoke (timer_cancel ping_timer_) c4 in
      let '(q, point) :=
        stable_partition
          (fun p => negb (closes_on_run_completion c5 p))
          (reqs_ c5) in
      let c6 := set_reqs q c5 in
      let c7 :=
        foldl (fun c p => invoke (timer_cancel (info_timer p))
                                 (update mark_stop p c))
              c6 (drop point (reqs_ c6)) in
      (1, set_reqs (take point (reqs_ c7)) c7)
  | receive_event => (1, invoke (channel_cancel event_channel_) c)
  | receive_push => (1, invoke (channel_cancel push_channel_) c)
  end.

(** [connection::cancel_push_requests]. *)
Definition cancel_push_requests (c : connection) : connection :=
  let '(q, point) :=
    stable_partition
      (fun p => negb (written_push c p))
      (reqs_ c) in
  let c1 := set_reqs q c in
  let c2 :=
    foldl (fun c p => invoke (timer_cancel (info_timer p)) c)
          c1 (drop point (reqs_ c1)) in
  set_reqs (take point (reqs_ c2)) c2.

(** [socket_ != nullptr && socket_->is_open()]. *)
Definition socket_is_open (c : connection) : bool :=
  match socket_ c with
  | Some s => is_open s
  | None => false
  end.

(** [connection::add_request_info]. *)
Definition add_request_info (info : ptr) (c : connection) : connection :=
  let c1 := set_reqs (reqs_ c ++ [info]) c in
  if socket_is_open c1 && (cmds_ c1 =? 0) && bool_decide (write_buffer_ c1 = "")
  then invoke (timer_cancel writer_timer_) c1
  else c1.

(** [reqs_.at(i)]: throws [std::out_of_range] past the end. *)
Definition at_ (q : list ptr) (i : nat) : outcome ptr :=
  match q !! i with
  | Some p => Done p
  | None => OutOfRange
  end.

(** The body of the loop of [coalesce_requests] at index [i]. *)
Definition coalesce_step (c : connection) (i : nat) : outcome connection :=
  p ← at_ (reqs_ c) i;
  let c1 :=
    set_write_buffer (write_buffer_ c +:+ payload_at c p) c in
  p ← at_ (reqs_ c1) i;
  let c2 :=
    set_cmds (wrap (cmds_ c1 + size_at c1 p)) c1 in
  p ← at_ (reqs_ c2) i;
  Done (update mark_written p c2).

(** What one round of the loop does once [reqs_.at(i)] has returned [p]. *)
Definition coalesce_entry (c : connection) (p : ptr) : connection :=
  update mark_written p
    (set_cmds (wrap (cmds_ c + size_at c p))
       (set_write_buffer (write_buffer_ c +:+ payload_at c p) c)).

(** [for (auto i = 0UL; i < size; ++i) body]. *)
Fixpoint for_loop {S : Type} (body : S -> nat -> outcome S) (i : nat)
    (count : nat) (s : S) : outcome S :=
  match count with
  | O => Done s
  | Datatypes.S count' => s' ← body s i; for_loop body (Datatypes.S i) count' s'
  end.

(** [connection::coalesce_requests]. *)
Definition coalesce_requests (ndebug : bool) (c : connection)
  : outcome connection :=
  BOOST_ASSERT ndebug (bool_decide (write_buffer_ c = ""));;
  BOOST_ASSERT ndebug (negb (bool_decide (reqs_ c = [])));;
  let size := if Config.coalesce_requests (cfg_ c)
              then length (reqs_ c) else 1%nat in
  for_loop coalesce_step 0 size c.

(** *** The composed operations

    [exec_op], [reader_op] and [writer_op] live in
    [aedis/detail/connection_ops.hpp], which is not among the sources.  They
    are modelled from sections 4.D, 4.E and 4.F of the specification, on top
    of the queue operations above. *)

(** Modelled from the spec: how far a submission has got.  Its handler has
    been called with an error code ([None] is success) and a byte count, or
    it is suspended on the wake of its queue entry. *)
Inductive exec_state : Type :=
  | completed (ec : option error) (n : Z)
  | waiting (p : ptr).

(** Modelled from the spec: the first step of [exec_op] (4.D, submit).  If
    disconnected and [cancel_if_not_connected], fail at once with
    [not_connected]; otherwise allocate an in-flight entry and hand it to
    [add_request_info], the one function of the connection that puts an
    entry into the queue: it appends the entry to the tail and wakes the
    writer if idle.  Nothing in the sources looks at [hello_with_priority] or
    moves an entry once it is queued, so the queue is left as
    [add_request_info] returns it. *)
Definition exec_op_start (r : request) (a : adapter) (c : connection)
  : exec_state * connection :=
  if cancel_if_not_connected (cfg r) && negb (socket_is_open c)
  then (completed (Some not_connected) 0, c)
  else
    let p : ptr := fresh (dom (infos c)) in
    let info := {| req := r; cmds := size r; stop := false; written := false |} in
    let c1 := set_infos (<[p := info]> (infos c)) c in
    let c2 := add_request_info p c1 in
    (waiting p, c2).

(** [connection::async_exec]: the assertion, then the composed operation
    [exec_op]. *)
Definition async_exec (ndebug : bool) (r : request) (a : adapter)
    (c : connection) : outcome (exec_state * connection) :=
  BOOST_ASSERT ndebug (size r <=? supported_response_size a);;
  Done (exec_op_start r a c).

(** Modelled from the spec: a complete top-level frame, that is its nodes in
    depth-first order, the root first, and the number of bytes it took on the
    wire. *)
Record frame : Type := mk_frame {
  nodes : list Resp3.node;
  wire_size : Z
}.

Definition root_type (f : frame) : Resp3.type :=
  match nodes f with
  | n :: _ => Resp3.data_type n
  | [] => Resp3.invalid
  end.

Definition is_push (f : frame) : bool :=
  bool_decide (root_type f = Resp3.push).

(** Modelled from the spec: one call [adapter(index, node, ec)] of the
    adapter bound to entry [target]. *)
Record adapter_call : Type := mk_adapter_call {
  target : ptr;
  index : Z;
  seen : Resp3.node
}.

(** Modelled from the spec: the connection while [async_run] is in
    progress, that is the connection itself,
    the writes that reached the socket, the calls made on the adapters of the
    submissions, the frames handed to the push rendezvous, the bytes read so
    far for each entry, and the submissions woken with success together with
    their byte counts. *)
Record running : Type := mk_running {
  conn : connection;
  wire : list string;
  adapter_calls : list adapter_call;
  pushes : list frame;
  read_size : gmap ptr Z;
  finished : list (ptr * Z)
}.

Definition start_running (c : connection) : running :=
  {| conn := c; wire := []; adapter_calls := []; pushes := [];
     read_size := ∅; finished := [] |}.

Definition decrement_cmds (e : req_info) : req_info :=
  {| req := req e; cmds := cmds e - 1; stop := stop e; written := written e |}.

(** Modelled from the spec: what [reader_op] does with one completed
    top-level frame (4.A push classification, 4.E).  A frame whose root type
    is push is delivered to the push rendezvous.  Any other frame goes to the
    head entry: its adapter is invoked for each node, with the ordinal of the
    command within the request, and [remaining_cmds] advances by one; when it
    reaches zero the entry is woken with success and the byte count, and
    popped.  The specification does not say what happens to a frame that is
    not a push when no entry expects one; the reader stops there ([None]). *)
Definition deliver_push (f : frame) (r : running) : running :=
  {| conn := conn r; wire := wire r; adapter_calls := adapter_calls r;
     pushes := pushes r ++ [f]; read_size := read_size r;
     finished := finished r |}.

(** Modelled from the spec: a frame that is not a push, given to the head
    entry (4.E). *)
Definition dispatch (f : frame) (r : running) : option running :=
  match reqs_ (conn r) with
  | [] => None
  | p :: rest =>
      match infos (conn r) !! p with
      | None => None
      | Some e =>
          if cmds e <=? 0 then None
          else
            let i := size (req e) - cmds e in
            let seen_now :=
              List.map (fun n => {| target := p; index := i; seen := n |})
                       (nodes f) in
            let n := default 0 (read_size r !! p) + wire_size f in
            let c1 := update decrement_cmds p (conn r) in
            if cmds e - 1 =? 0 then
              Some {| conn := set_reqs rest c1; wire := wire r;
                      adapter_calls := adapter_calls r ++ seen_now;
                      pushes := pushes r; read_size := delete p (read_size r);
                      finished := finished r ++ [(p, n)] |}
            else
              Some {| conn := c1; wire := wire r;
                      adapter_calls := adapter_calls r ++ seen_now;
                      pushes := pushes r; read_size := <[p := n]> (read_size r);
                      finished := finished r |}
      end
  end.

(** Modelled from the spec: the push classification (4.A). *)
Definition on_frame (f : frame) (r : running) : option running :=
  if is_push f then Some (deliver_push f r) else dispatch f r.

(** Modelled from the spec: the loop of [reader_op] over the frames that
    arrive; it returns the state it reaches and the frames it did not get
    to. *)
Fixpoint reader (fs : list frame) (r : running) : running * list frame :=
  match fs with
  | [] => (r, [])
  | f :: fs' =>
      match on_frame f r with
      | Some r' => reader fs' r'
      | None => (r, fs)
      end
  end.

(** Every queued entry still expects a response: its pointer is live and
    its [cmds] is positive; the pointers are pairwise distinct. *)
Definition expecting (c : connection) : Prop :=
  NoDup (reqs_ c)
  ∧ Forall (fun p => exists e, infos c !! p = Some e /\ 0 < cmds e) (reqs_ c).

(** The number of responses the queued entries still expect. *)
Definition outstanding (c : connection) : Z :=
  foldr Z.add 0 (List.map (fun p => from_option cmds 0 (infos c !! p)) (reqs_ c)).

(** The reader loop over frames known to be replies: every frame is
    dispatched. *)
Fixpoint drain (fs : list frame) (r : running) : running * list frame :=
  match fs with
  | [] => (r, [])
  | f :: fs' =>
      match dispatch f r with
      | Some r' => drain fs' r'
      | None => (r, fs)
      end
  end.

(** Modelled from the spec: one round of [writer_op] (4.F).  If the queue has
    any unwritten entry, coalesce and write; the write buffer is cleared
    after the flush.  Otherwise the writer waits on [writer_timer_]. *)
Definition writer (ndebug : bool) (r : running) : outcome running :=
  if existsb (fun p => negb (test written (conn r) p)) (reqs_ (conn r)) then
    c1 ← coalesce_requests ndebug (conn r);
    Done {| conn := set_write_buffer "" c1;
            wire := wire r ++ [write_buffer_ c1];
            adapter_calls := adapter_calls r; pushes := pushes r;
            read_size := read_size r; finished := finished r |}
  else Done r.

(** [async_exec] on a connection that is running; the logs of the run are
    carried along. *)
Definition submit (ndebug : bool) (r : request) (a : adapter) (s : running)
  : outcome (exec_state * running) :=
  '(st, c1) ← async_exec ndebug r a (conn s);
  Done (st, {| conn := c1; wire := wire s; adapter_calls := adapter_calls s;
               pushes := pushes s; read_size := read_size s;
               finished := finished s |}).

(** *** The place of a new entry as the specification words it

    If [hello_with_priority] and the request's first command is HELLO,
    insert at the boundary between written and not-yet-written entries;
    otherwise append to the tail. *)
Fixpoint insert_at_boundary (is_written : ptr -> bool) (p : ptr)
    (q : list ptr) : list ptr :=
  match q with
  | [] => [p]
  | x :: q' =>
      if is_written x then x :: insert_at_boundary is_written p q'
      else p :: x :: q'
  end.

Definition spec_placement (c : connection) (r : request) (p : ptr)
  : list ptr :=
  if hello_with_priority (cfg r) && begins_with_hello r
  then insert_at_boundary (test written c) p (reqs_ c)
  else reqs_ c ++ [p].

(** *** The coalescing rule as the specification words it

    Starting at the head, walk forward while entries are unwritten and have
    [coalesce] set; always include at least one. *)
Definition spec_coalescible (c : connection) (p : ptr) : bool :=
  test (fun e => negb (written e) && coalesce (cfg (req e))) c p.

Fixpoint take_while {A : Type} (f : A -> bool) (l : list A) : list A :=
  match l with
  | [] => []
  | x :: l' => if f x then x :: take_while f l' else []
  end.

Definition spec_coalesced (c : connection) : list ptr :=
  match reqs_ c with
  | [] => []
  | p :: q => p :: take_while (spec_coalescible c) q
  end.

(** The entries that [coalesce_requests] includes: the whole queue when the
    connection is configured to coalesce, its head otherwise. *)
Definition coalesced (c : connection) : list ptr :=
  take (if Config.coalesce_requests (cfg_ c) then length (reqs_ c) else 1%nat)
       (reqs_ c).

(** The effect of coalescing the entries [included] on a connection [c],
    [c'] being the connection afterwards: the payloads are appended to the
    write buffer in queue order, [cmds_] grows by the sum of the command
    counts (in [std::size_t] arithmetic), the included entries are marked
    written and no other entry is touched. *)
Definition coalesces (included : list ptr) (c c' : connection) : Prop :=
  write_buffer_ c'
  = write_buffer_ c +:+ foldr String.append "" (List.map (payload_at c) included)
  ∧ cmds_ c' = wrap (cmds_ c + foldr Z.add 0 (List.map (size_at c) included))
  ∧ (∀ p, p ∈ included → infos c' !! p = mark_written <$> infos c !! p)
  ∧ (∀ p, p ∉ included → infos c' !! p = infos c !! p)
  ∧ reqs_ c' = reqs_ c.

(** *** Observations on the calls made *)

Definition wakes_entry (p : ptr) (k : call) : bool :=
  match k with
  | timer_cancel (info_timer q) | timer_cancel_one (info_timer q) =>
      bool_decide (q = p)
  | _ => false
  end.

(** How many times the timer of entry [p] is cancelled in [ks]. *)
Definition wakes (ks : list call) (p : ptr) : nat :=
  length (List.filter (wakes_entry p) ks).

(** The connection timers that [cancel(run)] cancels, in that order. *)
Definition run_timers : list call :=
  [timer_cancel read_timer_; timer_cancel check_idle_timer_;
   timer_cancel writer_timer_; timer_cancel ping_timer_].

(** The calls made between two states of the connection. *)
Definition new_calls (c c' : connection) : list call :=
  drop (length (calls c)) (calls c').

(** The queue of a connection the program can reach: the pointers are live
    and pairwise distinct, since every submission allocates its own entry. *)
Definition queue_wf (c : connection) : Prop :=
  NoDup (reqs_ c) ∧ queue_live c.

(** *** Concrete states *)

Definition connected (c : connection) : connection :=
  set_socket (Some {| is_open := true |}) c.

Definition plain : Request.config :=
  {| coalesce := true; cancel_on_connection_lost := false;
     retry_on_connection_lost := false; cancel_if_not_connected := false;
     hello_with_priority := false |}.

Definition no_coalesce : Request.config :=
  {| coalesce := false; cancel_on_connection_lost := false;
     retry_on_connection_lost := false; cancel_if_not_connected := false;
     hello_with_priority := false |}.

Definition ping (msg : string) (f : Request.config) : request :=
  push "PING" [msg] (new_request f).

Definition hello_ping (msg : string) (f : Request.config) : request :=
  push "PING" [msg] (push "HELLO" ["3"] (new_request f)).

Definition hello_ping_quit (msg : string) (f : Request.config) : request :=
  push "QUIT" [] (push "PING" [msg] (push "HELLO" ["3"] (new_request f))).

(** Two unwritten entries, the second of a request that must not be
    coalesced, on a connection configured to coalesce. *)
Definition two_queued : connection :=
  let '(_, c1) := exec_op_start (ping "a" plain) adapt_ignore
                    (make_connection Config.default) in
  let '(_, c2) := exec_op_start (ping "b" no_coalesce) adapt_ignore c1 in
  c2.

Definition closing (r : request) : request :=
  {| commands := commands r; payload := payload r; size := size r;
     cfg := cfg r; close_on_run_completion := true |}.

(** Four entries on an open connection: a written subscription, which
    expects no frame of its own; a ping that closes on run completion; a
    written ping; an unwritten ping. *)
Definition mixed_queue : connection :=
  let enqueue r c := (exec_op_start r adapt_ignore c).2 in
  let c1 := enqueue (push "SUBSCRIBE" ["channel"] (new_request plain))
                    (connected (make_connection Config.default)) in
  let c2 := enqueue (closing (ping "a" plain)) c1 in
  let c3 := enqueue (ping "b" plain) c2 in
  let c4 := enqueue (ping "c" plain) c3 in
  update mark_written 2%nat (update mark_written 0%nat c4).

(** A request that is to fail when the connection is not there. *)
Definition fail_fast : Request.config :=
  {| coalesce := true; cancel_on_connection_lost := false;
     retry_on_connection_lost := false; cancel_if_not_connected := true;
     hello_with_priority := false |}.

Definition hello_then_ping (f : Request.config) : request :=
  push "PING" [] (push "HELLO" ["3"] (new_request f)).

(** The hello-priority scenario: on an open connection whose run has not
    started, submit [PING req1], then [HELLO 3; PING req2; QUIT], then
    [HELLO 3; PING req3]; then let the writer run once.  The result is the
    state of the three submissions and of the connection. *)
Definition hello_priority_scenario (ndebug : bool)
    (f1 f2 f3 : Request.config)
  : outcome (exec_state * exec_state * exec_state * running) :=
  let s0 := start_running (connected (make_connection Config.default)) in
  '(st1, s1) ← submit ndebug (ping "req1" f1) adapt_ignore s0;
  '(st2, s2) ← submit ndebug (hello_ping_quit "req2" f2) adapt_ignore s1;
  '(st3, s3) ← submit ndebug (hello_ping "req3" f3) adapt_ignore s2;
  s4 ← writer ndebug s3;
  Done (st1, st2, st3, s4).

Definition with_priority : Request.config :=
  {| coalesce := true; cancel_on_connection_lost := false;
     retry_on_connection_lost := false; cancel_if_not_connected := false;
     hello_with_priority := true |}.

(** The nodes that the adapters of the submissions are called with between
    two states of a running connection. *)
Definition observed (r r' : running) : list Resp3.node :=
  List.map seen (drop (length (adapter_calls r)) (adapter_calls r')).

Definition nodes_of (fs : list frame) : list Resp3.node :=
  List.concat (List.map nodes fs).

Definition not_push (f : frame) : bool := negb (is_push f).

(** Replies of a server: [+OK], and the push a subscriber receives for a
    message on its channel. *)
Definition ok_frame : frame :=
  {| nodes := [Resp3.mk_node 1 0 Resp3.simple_string "OK"]; wire_size := 5 |}.

Definition pong_frame : frame :=
  {| nodes := [Resp3.mk_node 1 0 Resp3.simple_string "PONG"]; wire_size := 7 |}.

Definition message_push : frame :=
  {| nodes := [Resp3.mk_node 3 0 Resp3.push "";
               Resp3.mk_node 1 1 Resp3.blob_string "message";
               Resp3.mk_node 1 1 Resp3.blob_string "channel";
               Resp3.mk_node 1 1 Resp3.blob_string "hi"];
     wire_size := 38 |}.

(** The reply to [HELLO 3], cut down to one entry, and the reply to
    [PING msg]. *)
Definition hello_frame : frame :=
  {| nodes := [Resp3.mk_node 1 0 Resp3.map "";
               Resp3.mk_node 1 1 Resp3.blob_string "server";
               Resp3.mk_node 1 1 Resp3.blob_string "redis"];
     wire_size := 27 |}.

Definition ping_frame (msg : string) : frame :=
  {| nodes := [Resp3.mk_node 1 0 Resp3.blob_string msg];
     wire_size := 5 + Z.of_nat (String.length (pretty (String.length msg)))
                  + Z.of_nat (String.length msg) |}.

(** A running connection with one written submission of two commands. *)
Definition one_in_flight : running :=
  let s0 := start_running (connected (make_connection Config.default)) in
  match submit false (hello_then_ping plain) adapt_ignore s0 with
  | Done (_, s1) =>
      match writer false s1 with
      | Done s2 => s2
      | _ => s1
      end
  | _ => s0
  end.

(** The confirmation of [SUBSCRIBE channel], which the server sends as a
    push. *)
Definition subscribe_push : frame :=
  {| nodes := [Resp3.mk_node 3 0 Resp3.push "";
               Resp3.mk_node 1 1 Resp3.blob_string "subscribe";
               Resp3.mk_node 1 1 Resp3.blob_string "channel";
               Resp3.mk_node 1 1 Resp3.number "1"];
     wire_size := 36 |}.

(** The submission [HELLO 3; PING; SUBSCRIBE channel; QUIT], written. *)
Definition subscribing : running :=
  let r := push "QUIT" []
             (push "SUBSCRIBE" ["channel"]
                (push "PING" [] (push "HELLO" ["3"] (new_request plain)))) in
  let s0 := start_running (connected (make_connection Config.default)) in
  match submit false r adapt_ignore s0 with
  | Done (_, s1) =>
      match writer false s1 with
      | Done s2 => s2
      | _ => s1
      end
  | _ => s0
  end.

(** The connection of the hello-priority scenario before its third
    submission: [PING req1] and [HELLO 3; PING req2; QUIT] are queued, none
    of them written. *)
Definition two_submitted : connection :=
  let c0 := connected (make_connection Config.default) in
  let c1 := (exec_op_start (ping "req1" no_coalesce) adapt_ignore c0).2 in
  (exec_op_start (hello_ping_quit "req2" plain) adapt_ignore c1).2.

(** An adapter for a single response. *)
Definition adapt_one : adapter := {| supported_response_size := 1 |}.

End Connection.

(** ** The commands ([command.hpp]) *)

Module Command.

(** [enum class command]. *)
Inductive command : Type :=
  | acl_load | acl_save | acl_list | acl_users | acl_getuser | acl_setuser
  | acl_deluser | acl_cat | acl_genpass | acl_whoami | acl_log | acl_help
  | append | auth | bgrewriteaof | bgsave | bitcount | client_id | del
  | exec | expire | flushall | get | hello | hget | hgetall | hincrby
  | hkeys | hlen | hmget | hset | hvals | hdel | incr | keys | llen | lpop
  | lpush | lrange | ltrim | multi | ping | psubscribe | publish | quit
  | role | rpush | sadd | scard | sdiff | sentinel | set | smembers
  | subscribe | unsubscribe | zadd | zrange | zrangebyscore
  | zremrangebyscore | unknown.

#[global] Instance command_eq_dec : EqDecision command.
Proof. solve_decision. Defined.

End Command.

(** ** The example [examples/basic3.cpp] *)

Module Basic3.

Import Command.

(** What the example uses of its request class, which is declared in a
    header that is not among the sources: default construction ([{}]), the
    public member [commands] (a [std::queue<command>], front first), which
    the example reads and pops, and [push], which adds a command. *)
Class RequestOps (R : Type) : Type := {
  new_request : R;
  commands : R -> list command;
  set_commands : list command -> R -> R;
  push : command -> list string -> R -> R
}.

(** What the example relies on: a new request has no commands, [commands] is
    a member that can be assigned, and [push] enqueues the command. *)
Class RequestLaws (R : Type) `{RequestOps R} : Prop := {
  commands_new : commands new_request = [];
  commands_set : forall l r, commands (set_commands l r) = l;
  commands_push : forall c args r, commands (push c args r) = commands r ++ [c]
}.

(** The plainest request: the queue of its commands. *)
#[global] Instance command_queue : RequestOps (list command) := {
  new_request := [];
  commands := fun r => r;
  set_commands := fun l _ => l;
  push := fun c _ r => r ++ [c]
}.

Section Example.

Context {R : Type} `{RequestOps R}.

(** The responses are printed and otherwise not looked at. *)
Context {response : Type}.

(** [prepare_next]. *)
Definition prepare_next (reqs : list R) : list R :=
  if bool_decide (reqs = []) || (length reqs =? 1)%nat
  then reqs ++ [new_request]
  else reqs.

(** [reqs.back().push(c, args...)]; [back()] of an empty queue is
    undefined ([None]). *)
Definition push_back (c : command) (args : list string) (reqs : list R)
  : option (list R) :=
  match reverse reqs with
  | [] => None
  | r :: before => Some (reverse before ++ [push c args r])
  end.

(** [process_response]: what it prints and the queue it leaves.  [front()]
    of an empty queue is undefined ([None]). *)
Definition process_response (reqs : list R) (resp : response)
  : option (command * response * list R) :=
  match reqs with
  | [] => None
  | r :: _ =>
      match commands r with
      | [] => None
      | c :: _ =>
          reqs' ← match c with
                  | hello => push_back ping [] (prepare_next reqs)
                  | ping => push_back quit [] (prepare_next reqs)
                  | _ => Some reqs
                  end;
          Some (c, resp, reqs')
      end
  end.

(** What the coroutine [ping] does that can be seen from outside. *)
Inductive event : Type :=
  | written (r : R)
  | printed (c : command) (resp : response).

(** How a run of [ping] ends within the steps it is given: it returns, it
    waits for a response that does not come, it runs into undefined
    behaviour, or it is still running. *)
Inductive status : Type := returned | blocked | undefined | running.

(** The inner loop: [while (!empty(reqs.front().commands))], one response
    read and processed per round, then [reqs.front().commands.pop()]. *)
Fixpoint read_responses (fuel : nat) (reqs : list R) (input : list response)
    (trace : list event) : status * list R * list response * list event :=
  match fuel with
  | O => (running, reqs, input, trace)
  | S fuel' =>
      match reqs with
      | [] => (undefined, reqs, input, trace)
      | r :: _ =>
          if bool_decide (commands r = []) then (returned, reqs, input, trace)
          else
            match input with
            | [] => (blocked, reqs, input, trace)
            | resp :: input' =>
                match process_response reqs resp with
                | None => (undefined, reqs, input, trace)
                | Some (c, resp', reqs1) =>
                    match reqs1 with
                    | [] => (undefined, reqs1, input', trace)
                    | r1 :: rest =>
                        match commands r1 with
                        | [] => (undefined, reqs1, input', trace)
                        | _ :: cs =>
                            read_responses fuel'
                              (set_commands cs r1 :: rest)
                              input' (trace ++ [printed c resp'])
                        end
                    end
                end
            end
      end
  end.

(** The outer loop: [while (!empty(reqs))], write the front request, read
    its responses, [reqs.pop()]. *)
Fixpoint write_requests (fuel : nat) (reqs : list R) (input : list response)
    (trace : list event) : status * list R * list response * list event :=
  match fuel with
  | O => (running, reqs, input, trace)
  | S fuel' =>
      match reqs with
      | [] => (returned, reqs, input, trace)
      | r :: _ =>
          match read_responses fuel' reqs input (trace ++ [written r]) with
          | (returned, _ :: rest, input1, trace1) =>
              write_requests fuel' rest input1 trace1
          | (returned, [], input1, trace1) => (undefined, [], input1, trace1)
          | stopped => stopped
          end
      end
  end.

(** The coroutine [ping], from the connected socket on. *)
Definition ping_session (fuel : nat) (input : list response)
  : status * list R * list response * list event :=
  let reqs := [] ++ [new_request] in
  match push_back hello ["3"] reqs with
  | Some reqs' => write_requests fuel reqs' input []
  | None => (undefined, reqs, input, [])
  end.

End Example.

End Basic3.

(** * Properties *)

(** A decidable closed proposition, settled by evaluating its decision
    procedure. *)
Ltac decide_by_computation :=
  apply (bool_decide_unpack _); vm_compute; exact I.

(** ** The sigil mapping *)

Section SigilFacts.

Import Resp3.

Lemma to_code_valid (ndebug : bool) (t : type) :
  t ≠ invalid → ∃ c, to_code ndebug t = Done c ∧ (t, c) ∈ spec_sigil_table.
Proof.
  intros Ht.
  destruct t; try (eexists; split; [reflexivity|];
                   decide_by_computation).
  congruence.
Qed.

Lemma table_consistent (ndebug : bool) (t : type) (c : ascii) :
  (t, c) ∈ spec_sigil_table → to_code ndebug t = Done c ∧ to_type c = t.
Proof.
  unfold spec_sigil_table. intros H.
  repeat (apply elem_of_cons in H as [H|H];
          [injection H as -> ->; split; reflexivity|]).
  by apply elem_of_nil in H.
Qed.

Lemma to_type_outside_table (c : ascii) :
  c ∉ table_bytes → to_type c = invalid.
Proof.
  intros H.
  destruct c as [[] [] [] [] [] [] [] []];
    first [ reflexivity
          | exfalso; apply H; decide_by_computation ].
Qed.

(** C9. The sigil mappings are mutually inverse over the sixteen wire types
    of the table of section 6: [to_code] maps every type other than
    [invalid] to its byte of the table and [to_type] maps that byte back;
    [to_code (to_type c)] is [c] for every byte [c] of the table; every other
    byte is mapped to [invalid] by [to_type]. *)
Theorem sigil_mapping_inverse :
  (∀ ndebug t, t ≠ invalid →
     ∃ c, to_code ndebug t = Done c ∧ to_type c = t ∧ (t, c) ∈ spec_sigil_table)
  ∧ (∀ ndebug c, c ∈ table_bytes → to_code ndebug (to_type c) = Done c)
  ∧ (∀ c, c ∉ table_bytes → to_type c = invalid)
  ∧ length spec_sigil_table = 16%nat ∧ NoDup table_types ∧ NoDup table_bytes.
Proof.
  split; [|split; [|split; [|split; [|split]]]].
  - intros nd t Ht.
    destruct (to_code_valid nd t Ht) as (c & Hc & Hin).
    exists c. split; [done|]. split; [|done].
    by apply (table_consistent nd) in Hin as [_ ?].
  - intros nd c Hc. unfold table_bytes in Hc.
    apply list_elem_of_In, in_map_iff in Hc as ([t c'] & <- & Hin).
    apply list_elem_of_In, (table_consistent nd) in Hin as [Hcode Htype].
    simpl. by rewrite Htype.
  - apply to_type_outside_table.
  - reflexivity.
  - decide_by_computation.
  - decide_by_computation.
Qed.

Lemma sigil_mapping_inverse_witness :
  (∃ c, to_code false push = Done c ∧ to_type c = push)
  ∧ to_code false (to_type ">"%char) = Done ">"%char
  ∧ to_type "a"%char = invalid.
Proof.
  destruct sigil_mapping_inverse as (H1 & H2 & H3 & _).
  split; [|split].
  - destruct (H1 false push) as (c & Hc & Ht & _); [discriminate|].
    exists c. by split.
  - apply H2. decide_by_computation.
  - apply H3. decide_by_computation.
Defined.

End SigilFacts.

(** ** The queue operations of the connection *)

Section QueueFacts.

Import Request Connection.

(** *** Loops over queue entries *)

Lemma fold_alter_notin (f : req_info → req_info) (l : list ptr)
    (h : gmap ptr req_info) (p : ptr) :
  p ∉ l → foldl (λ h q, alter f q h) h l !! p = h !! p.
Proof.
  revert h. induction l as [|q l IH]; intros h Hp; [done|].
  apply not_elem_of_cons in Hp as [Hne Hp]. simpl.
  rewrite IH by done. by apply lookup_alter_ne.
Qed.

Lemma fold_alter_in (f : req_info → req_info) (l : list ptr)
    (h : gmap ptr req_info) (p : ptr) :
  (∀ e, f (f e) = f e) → p ∈ l →
  foldl (λ h q, alter f q h) h l !! p = f <$> h !! p.
Proof.
  intros Hf. revert h. induction l as [|q l IH]; intros h Hp.
  { by apply elem_of_nil in Hp. }
  simpl. destruct (decide (p ∈ l)) as [Hin|Hnotin].
  - rewrite IH by done. destruct (decide (q = p)) as [->|Hne].
    + rewrite lookup_alter_eq. destruct (h !! p); simpl; by rewrite ?Hf.
    + by rewrite lookup_alter_ne.
  - apply elem_of_cons in Hp as [->|Hp]; [|done].
    rewrite fold_alter_notin by done. apply lookup_alter_eq.
Qed.

(** A loop that writes through every pointer of [l] and cancels a timer for
    each of them touches nothing but [infos] and [calls]. *)
Lemma fold_update_invoke (f : req_info → req_info) (k : ptr → call)
    (l : list ptr) (c : connection) :
  foldl (λ c p, invoke (k p) (update f p c)) c l =
  {| socket_ := socket_ c; cfg_ := cfg_ c; read_buffer_ := read_buffer_ c;
     write_buffer_ := write_buffer_ c; cmds_ := cmds_ c; reqs_ := reqs_ c;
     infos := foldl (λ h q, alter f q h) (infos c) l;
     calls := calls c ++ List.map k l |}.
Proof.
  revert c. induction l as [|p l IH]; intros c; simpl.
  - rewrite app_nil_r. by destruct c.
  - rewrite IH. simpl. by rewrite <- app_assoc.
Qed.

Lemma fold_invoke (k : ptr → call) (l : list ptr) (c : connection) :
  foldl (λ c p, invoke (k p) c) c l =
  {| socket_ := socket_ c; cfg_ := cfg_ c; read_buffer_ := read_buffer_ c;
     write_buffer_ := write_buffer_ c; cmds_ := cmds_ c; reqs_ := reqs_ c;
     infos := infos c; calls := calls c ++ List.map k l |}.
Proof.
  revert c. induction l as [|p l IH]; intros c; simpl.
  - rewrite app_nil_r. by destruct c.
  - rewrite IH. simpl. by rewrite <- app_assoc.
Qed.

(** [erase(point, end)] after [stable_partition] leaves the entries that
    satisfy the predicate, [for_each(point, end)] visits the others. *)
Lemma stable_partition_take {A : Type} (pred : A → bool) (l : list A) :
  take (stable_partition pred l).2 (stable_partition pred l).1
  = List.filter pred l.
Proof. unfold stable_partition. simpl. by rewrite take_app_length. Qed.

Lemma stable_partition_drop {A : Type} (pred : A → bool) (l : list A) :
  drop (stable_partition pred l).2 (stable_partition pred l).1
  = List.filter (λ x, negb (pred x)) l.
Proof. unfold stable_partition. simpl. by rewrite drop_app_length. Qed.

Lemma elem_of_filter_bool {A : Type} (pred : A → bool) (l : list A) (x : A) :
  x ∈ List.filter pred l ↔ x ∈ l ∧ pred x = true.
Proof. rewrite !list_elem_of_In. apply filter_In. Qed.

Lemma sublist_filter_bool {A : Type} (pred : A → bool) (l : list A) :
  sublist (List.filter pred l) l.
Proof.
  induction l as [|x l IH]; simpl; [constructor|].
  destruct (pred x); by constructor.
Qed.

Lemma mark_stop_idemp (e : req_info) : mark_stop (mark_stop e) = mark_stop e.
Proof. done. Qed.

Lemma mark_written_idemp (e : req_info) :
  mark_written (mark_written e) = mark_written e.
Proof. done. Qed.

Lemma new_calls_app (c c' : connection) (ks : list call) :
  calls c' = calls c ++ ks → new_calls c c' = ks.
Proof. unfold new_calls. intros ->. by rewrite drop_app_length. Qed.

Lemma wakes_cancel_one_map (l : list ptr) (p : ptr) :
  NoDup l →
  wakes (List.map (λ q, timer_cancel_one (info_timer q)) l) p
  = if bool_decide (p ∈ l) then 1%nat else 0%nat.
Proof.
  unfold wakes. induction 1 as [|q l Hq Hnd IH]; [done|].
  simpl. destruct (decide (q = p)) as [->|Hne].
  - rewrite bool_decide_true by done. simpl. rewrite IH.
    rewrite bool_decide_false by done. rewrite bool_decide_true by left. done.
  - rewrite bool_decide_false by done. rewrite IH.
    rewrite (bool_decide_ext (p ∈ q :: l) (p ∈ l)); [done|].
    rewrite elem_of_cons. split; [intros [?|?]; [congruence|done] | by right].
Qed.

(** *** [cancel(operation::exec)] *)

Lemma cancel_exec_eq (c : connection) :
  cancel exec c =
  (Z.of_nat (length (reqs_ c)),
   {| socket_ := socket_ c; cfg_ := cfg_ c; read_buffer_ := read_buffer_ c;
      write_buffer_ := write_buffer_ c; cmds_ := cmds_ c; reqs_ := [];
      infos := foldl (λ h q, alter mark_stop q h) (infos c) (reqs_ c);
      calls := calls c
               ++ List.map (λ q, timer_cancel_one (info_timer q)) (reqs_ c) |}).
Proof. unfold cancel. by rewrite fold_update_invoke. Qed.

Lemma cancel_exec_empty (c : connection) :
  reqs_ c = [] → cancel exec c = (0, c).
Proof.
  intros Hq. rewrite cancel_exec_eq, Hq. simpl. rewrite app_nil_r.
  destruct c; simpl in *; by subst.
Qed.

(** C3. [cancel(exec)] marks every entry of the queue [stop = true], cancels
    the timer of each of them exactly once, empties the queue and returns the
    number of entries it held; a second [cancel(exec)] right after it returns
    0 and changes nothing, so that the two calls together wake no entry more
    than once. *)
Theorem cancel_exec_idempotent (c : connection) :
  NoDup (reqs_ c) →
  ∃ c1, cancel exec c = (Z.of_nat (length (reqs_ c)), c1)
    ∧ reqs_ c1 = []
    ∧ (∀ p, p ∈ reqs_ c →
         infos c1 !! p = mark_stop <$> infos c !! p
         ∧ wakes (new_calls c c1) p = 1%nat)
    ∧ (∀ p, p ∉ reqs_ c →
         infos c1 !! p = infos c !! p ∧ wakes (new_calls c c1) p = 0%nat)
    ∧ new_calls c c1
      = List.map (λ p, timer_cancel_one (info_timer p)) (reqs_ c)
    ∧ cancel exec c1 = (0, c1)
    ∧ (∀ p, (wakes (new_calls c (cancel exec c1).2) p ≤ 1)%nat).
Proof.
  intros Hnd. rewrite cancel_exec_eq. eexists. split; [reflexivity|].
  set (c1 := mk_connection _ _ _ _ _ _ _ _).
  assert (Hnew : new_calls c c1
                 = List.map (λ p, timer_cancel_one (info_timer p)) (reqs_ c))
    by by apply new_calls_app.
  assert (Hagain : cancel exec c1 = (0, c1)) by by apply cancel_exec_empty.
  split; [done|]. split; [|split; [|split; [done|split; [done|]]]].
  - intros p Hp. split.
    + by apply fold_alter_in.
    + rewrite Hnew, wakes_cancel_one_map by done. by rewrite bool_decide_true.
  - intros p Hp. split.
    + by apply fold_alter_notin.
    + rewrite Hnew, wakes_cancel_one_map by done. by rewrite bool_decide_false.
  - intros p. rewrite Hagain. simpl.
    rewrite Hnew, wakes_cancel_one_map by done. case_bool_decide; lia.
Qed.

Lemma cancel_exec_idempotent_witness :
  NoDup (reqs_ two_queued)
  ∧ ∃ c1, cancel exec two_queued = (2, c1)
      ∧ reqs_ c1 = []
      ∧ stop <$> infos c1 !! 0%nat = Some true
      ∧ stop <$> infos c1 !! 1%nat = Some true
      ∧ wakes (new_calls two_queued c1) 0%nat = 1%nat
      ∧ cancel exec c1 = (0, c1).
Proof.
  assert (Hnd : NoDup (reqs_ two_queued)) by decide_by_computation.
  split; [exact Hnd|].
  destruct (cancel_exec_idempotent two_queued Hnd)
    as (c1 & Hc & Hq & Hin & _ & _ & Hagain & _).
  exists c1. split; [exact Hc|]. split; [exact Hq|].
  assert (H0 : 0%nat ∈ reqs_ two_queued) by decide_by_computation.
  assert (H1 : 1%nat ∈ reqs_ two_queued) by decide_by_computation.
  destruct (Hin _ H0) as [Hs0 Hw0]. destruct (Hin _ H1) as [Hs1 _].
  rewrite Hs0, Hs1.
  split; [vm_compute; reflexivity|]. split; [vm_compute; reflexivity|].
  split; [exact Hw0|exact Hagain].
Defined.

(** *** [cancel(operation::run)] *)

Lemma cancel_run_eq (c : connection) :
  let dropped := List.filter (λ p, negb (negb (closes_on_run_completion c p)))
                             (reqs_ c) in
  cancel run c =
  (1,
   {| socket_ := (λ _, {| is_open := false |}) <$> socket_ c;
      cfg_ := cfg_ c; read_buffer_ := read_buffer_ c;
      write_buffer_ := write_buffer_ c; cmds_ := cmds_ c;
      reqs_ := List.filter (λ p, negb (closes_on_run_completion c p)) (reqs_ c);
      infos := foldl (λ h q, alter mark_stop q h) (infos c) dropped;
      calls := calls c ++ run_timers
               ++ List.map (λ q, timer_cancel (info_timer q)) dropped |}).
Proof.
  unfold cancel, stable_partition.
  destruct (socket_ c) as [s|] eqn:Hs;
    match goal with
    | |- context [closes_on_run_completion ?c5] =>
        progress change (closes_on_run_completion c5)
          with (closes_on_run_completion c)
    end;
    cbn [reqs_ set_reqs invoke set_socket];
    rewrite drop_app_length, fold_update_invoke;
    cbn [reqs_ set_reqs invoke set_socket socket_ cfg_ read_buffer_
         write_buffer_ cmds_ infos calls];
    rewrite take_app_length; unfold run_timers; simpl;
    rewrite <- !app_assoc, ?Hs; reflexivity.
Qed.

Lemma negb_negb_filter {A : Type} (f : A → bool) (l : list A) :
  List.filter (λ x, negb (negb (f x))) l = List.filter f l.
Proof. apply filter_ext. intros x. apply negb_involutive. Qed.

(** C4. [cancel(run)] closes the socket, removes from the queue exactly the
    entries whose request has [close_on_run_completion] set, marking each of
    them stopped and cancelling its timer, and keeps every other entry,
    written or not, untouched and in the original relative order. *)
Theorem cancel_run_keeps_others (c : connection) :
  ∃ c', cancel run c = (1, c')
    ∧ socket_is_open c' = false
    ∧ socket_ c' = (λ _, {| is_open := false |}) <$> socket_ c
    ∧ reqs_ c'
      = List.filter (λ p, negb (closes_on_run_completion c p)) (reqs_ c)
    ∧ sublist (reqs_ c') (reqs_ c)
    ∧ (∀ p, p ∈ reqs_ c' ↔ p ∈ reqs_ c ∧ closes_on_run_completion c p = false)
    ∧ (∀ p, p ∈ reqs_ c → closes_on_run_completion c p = true →
         infos c' !! p = mark_stop <$> infos c !! p
         ∧ timer_cancel (info_timer p) ∈ new_calls c c')
    ∧ (∀ p, p ∈ reqs_ c' → infos c' !! p = infos c !! p)
    ∧ (∀ p, p ∈ reqs_ c → test written c p = true →
         closes_on_run_completion c p = false → p ∈ reqs_ c')
    ∧ new_calls c c'
      = run_timers
        ++ List.map (λ p, timer_cancel (info_timer p))
             (List.filter (closes_on_run_completion c) (reqs_ c)).
Proof.
  pose proof (cancel_run_eq c) as Heq. cbv zeta in Heq.
  rewrite negb_negb_filter in Heq. rewrite Heq. clear Heq.
  eexists. split; [reflexivity|].
  set (c' := mk_connection _ _ _ _ _ _ _ _).
  assert (Hnew : new_calls c c'
            = run_timers
              ++ List.map (λ p, timer_cancel (info_timer p))
                   (List.filter (closes_on_run_completion c) (reqs_ c)))
    by by apply new_calls_app.
  assert (Hmem : ∀ p, p ∈ reqs_ c' ↔
                      p ∈ reqs_ c ∧ closes_on_run_completion c p = false).
  { intros p. subst c'. cbn [reqs_]. rewrite elem_of_filter_bool.
    by rewrite negb_true_iff. }
  split; [by subst c'; unfold socket_is_open; simpl; destruct (socket_ c)|].
  split; [done|]. split; [done|].
  split.
  { apply sublist_filter_bool. }
  split; [exact Hmem|].
  split; [|split; [|split; [|exact Hnew]]].
  - intros p Hp Hcl. split.
    + subst c'. cbn [infos]. apply fold_alter_in; [done|].
      by apply elem_of_filter_bool.
    + rewrite Hnew. apply elem_of_app. right.
      apply list_elem_of_In, (in_map (λ q, timer_cancel (info_timer q))),
        list_elem_of_In.
      by apply elem_of_filter_bool.
  - intros p Hp. apply Hmem in Hp as [Hp Hcl]. subst c'. cbn [infos].
    apply fold_alter_notin. rewrite elem_of_filter_bool. intros [_ ?]. congruence.
  - intros p Hp _ Hcl. by apply Hmem.
Qed.

Lemma cancel_run_keeps_others_witness :
  ∃ c', cancel run mixed_queue = (1, c')
    ∧ socket_is_open c' = false
    ∧ reqs_ c' = [0; 2; 3]%nat
    ∧ stop <$> infos c' !! 1%nat = Some true
    ∧ infos c' !! 2%nat = infos mixed_queue !! 2%nat.
Proof.
  destruct (cancel_run_keeps_others mixed_queue)
    as (c' & Hc & Hs & _ & Hq & _ & _ & Hdrop & Hkeep & _).
  exists c'. split; [exact Hc|]. split; [exact Hs|].
  assert (Hq' : reqs_ c' = [0; 2; 3]%nat) by (rewrite Hq; vm_compute; reflexivity).
  split; [exact Hq'|]. split.
  - destruct (Hdrop 1%nat) as [Hstop _];
      [decide_by_computation | vm_compute; reflexivity |].
    rewrite Hstop. vm_compute. reflexivity.
  - apply Hkeep. rewrite Hq'. decide_by_computation.
Defined.

(** *** [cancel_push_requests] *)

Lemma cancel_push_requests_eq (c : connection) :
  cancel_push_requests c =
  {| socket_ := socket_ c; cfg_ := cfg_ c; read_buffer_ := read_buffer_ c;
     write_buffer_ := write_buffer_ c; cmds_ := cmds_ c;
     reqs_ := List.filter (λ p, negb (written_push c p)) (reqs_ c);
     infos := infos c;
     calls := calls c
              ++ List.map (λ q, timer_cancel (info_timer q))
                   (List.filter (written_push c) (reqs_ c)) |}.
Proof.
  unfold cancel_push_requests, stable_partition. cbn [reqs_ set_reqs].
  rewrite drop_app_length, fold_invoke. cbn [reqs_ set_reqs].
  rewrite take_app_length, negb_negb_filter. reflexivity.
Qed.

Lemma written_push_spec (c : connection) (p : ptr) (e : req_info) :
  infos c !! p = Some e →
  written_push c p = true ↔ written e = true ∧ size (req e) = 0.
Proof.
  intros He. unfold written_push, test. rewrite He. simpl.
  rewrite andb_true_iff, Z.eqb_eq. done.
Qed.

(** C8. [cancel_push_requests] removes from the queue exactly the entries
    that are written and whose request has a command count of zero, and
    cancels the timer of each of them; every other entry stays in the queue,
    in the original relative order, and no entry is modified. *)
Theorem cancel_push_requests_frame (c : connection) :
  let c' := cancel_push_requests c in
  reqs_ c' = List.filter (λ p, negb (written_push c p)) (reqs_ c)
  ∧ sublist (reqs_ c') (reqs_ c)
  ∧ (∀ p, p ∈ reqs_ c' ↔ p ∈ reqs_ c ∧ written_push c p = false)
  ∧ (∀ p e, infos c !! p = Some e →
       written_push c p = true ↔ written e = true ∧ size (req e) = 0)
  ∧ new_calls c c'
    = List.map (λ p, timer_cancel (info_timer p))
        (List.filter (written_push c) (reqs_ c))
  ∧ (∀ p, p ∈ reqs_ c → written_push c p = true →
       timer_cancel (info_timer p) ∈ new_calls c c')
  ∧ infos c' = infos c
  ∧ socket_ c' = socket_ c ∧ cfg_ c' = cfg_ c
  ∧ read_buffer_ c' = read_buffer_ c ∧ write_buffer_ c' = write_buffer_ c
  ∧ cmds_ c' = cmds_ c.
Proof.
  intros c'. subst c'. rewrite cancel_push_requests_eq.
  set (c' := mk_connection _ _ _ _ _ _ _ _).
  assert (Hnew : new_calls c c'
            = List.map (λ p, timer_cancel (info_timer p))
                (List.filter (written_push c) (reqs_ c)))
    by by apply new_calls_app.
  split; [done|]. split; [apply sublist_filter_bool|].
  split.
  { intros p. subst c'. cbn [reqs_]. rewrite elem_of_filter_bool.
    by rewrite negb_true_iff. }
  split; [apply written_push_spec|]. split; [exact Hnew|].
  split; [|done].
  intros p Hp Hw. rewrite Hnew.
  apply list_elem_of_In, (in_map (λ q, timer_cancel (info_timer q))),
    list_elem_of_In.
  by apply elem_of_filter_bool.
Qed.

Lemma cancel_push_requests_frame_witness :
  reqs_ (cancel_push_requests mixed_queue) = [1; 2; 3]%nat
  ∧ new_calls mixed_queue (cancel_push_requests mixed_queue)
    = [timer_cancel (info_timer 0%nat)]
  ∧ timer_cancel (info_timer 0%nat)
    ∈ new_calls mixed_queue (cancel_push_requests mixed_queue)
  ∧ infos (cancel_push_requests mixed_queue) = infos mixed_queue.
Proof.
  destruct (cancel_push_requests_frame mixed_queue)
    as (Hq & _ & _ & _ & Hnew & Hin & Hinfos & _).
  split; [rewrite Hq; vm_compute; reflexivity|].
  split; [rewrite Hnew; vm_compute; reflexivity|].
  split; [|exact Hinfos].
  apply Hin; [decide_by_computation | vm_compute; reflexivity].
Defined.

(** *** [add_request_info] *)

Lemma new_calls_same (c c' : connection) :
  calls c' = calls c → new_calls c c' = [].
Proof. unfold new_calls. intros ->. apply drop_all. Qed.

(** C10. [add_request_info] places the new entry at the tail of the queue
    and cancels the writer timer if and only if the socket exists and is
    open, no command is in flight and the write buffer is empty; in every
    other state it makes no call at all. *)
Theorem add_request_info_tail_and_wake (info : ptr) (c : connection) :
  let c' := add_request_info info c in
  let idle := (∃ s, socket_ c = Some s ∧ is_open s = true)
              ∧ cmds_ c = 0 ∧ write_buffer_ c = "" in
  reqs_ c' = reqs_ c ++ [info]
  ∧ (idle → new_calls c c' = [timer_cancel writer_timer_])
  ∧ (¬ idle → new_calls c c' = [])
  ∧ (timer_cancel writer_timer_ ∈ new_calls c c' ↔ idle)
  ∧ infos c' = infos c ∧ socket_ c' = socket_ c ∧ cfg_ c' = cfg_ c
  ∧ cmds_ c' = cmds_ c ∧ write_buffer_ c' = write_buffer_ c
  ∧ read_buffer_ c' = read_buffer_ c.
Proof.
  intros c' idle. subst c'. unfold add_request_info.
  set (c1 := set_reqs _ c).
  assert (Hidle : socket_is_open c1 && (cmds_ c1 =? 0)
                  && bool_decide (write_buffer_ c1 = "") = true ↔ idle).
  { subst c1 idle. unfold socket_is_open. cbn [socket_ cmds_ write_buffer_ set_reqs].
    rewrite !andb_true_iff, Z.eqb_eq, bool_decide_eq_true.
    destruct (socket_ c) as [s|]; split.
    - intros [[? ?] ?]. eauto.
    - intros [(s' & [= <-] & ?) [? ?]]. done.
    - intros [[? ?] ?]. done.
    - intros [(s' & ? & ?) _]. done. }
  destruct (socket_is_open c1 && _ && _) eqn:Hcond.
  - assert (Hi : idle) by by apply Hidle.
    assert (Hnew : new_calls c (invoke (timer_cancel writer_timer_) c1)
                   = [timer_cancel writer_timer_]) by by apply new_calls_app.
    rewrite Hnew.
    split; [done|]. split; [done|]. split; [by intros Hn; destruct Hn|].
    split; [|done]. split; [done|]. intros _. by apply list_elem_of_singleton.
  - assert (Hi : ¬ idle) by (intros Hi; apply Hidle in Hi; congruence).
    assert (Hnew : new_calls c c1 = []) by by apply new_calls_same.
    rewrite Hnew.
    split; [done|]. split; [by intros Hn; destruct Hi|]. split; [done|].
    split; [|done]. split; [|done]. intros Hin. by apply elem_of_nil in Hin.
Qed.

Lemma add_request_info_tail_and_wake_witness :
  new_calls (connected (make_connection Config.default))
            (add_request_info 7%nat (connected (make_connection Config.default)))
  = [timer_cancel writer_timer_]
  ∧ new_calls mixed_queue (add_request_info 7%nat mixed_queue)
    = [timer_cancel writer_timer_]
  ∧ reqs_ (add_request_info 7%nat mixed_queue) = [0; 1; 2; 3; 7]%nat
  ∧ new_calls (make_connection Config.default)
              (add_request_info 7%nat (make_connection Config.default))
    = [].
Proof.
  split; [|split; [|split]].
  - apply (add_request_info_tail_and_wake 7%nat
             (connected (make_connection Config.default))).
    split; [eexists; split; reflexivity|]. split; reflexivity.
  - apply (add_request_info_tail_and_wake 7%nat mixed_queue).
    split; [eexists; split; reflexivity|]. split; reflexivity.
  - apply (add_request_info_tail_and_wake 7%nat mixed_queue).
  - apply (add_request_info_tail_and_wake 7%nat (make_connection Config.default)).
    intros [(s & Hs & _) _]. discriminate Hs.
Defined.

(** *** [coalesce_requests] *)

Lemma string_app_assoc (a b c : string) : (a +:+ b) +:+ c = a +:+ b +:+ c.
Proof.
  induction a as [|x a IH]; [done|].
  change (String x ((a +:+ b) +:+ c) = String x (a +:+ b +:+ c)).
  by rewrite IH.
Qed.

Lemma string_app_nil_r (a : string) : a +:+ "" = a.
Proof.
  induction a as [|x a IH]; [done|].
  change (String x (a +:+ "") = String x a). by rewrite IH.
Qed.

Lemma coalesce_step_at (c : connection) (i : nat) (p : ptr) :
  reqs_ c !! i = Some p → coalesce_step c i = Done (coalesce_entry c p).
Proof.
  intros Hp. unfold coalesce_step, at_. cbn [reqs_ set_write_buffer set_cmds].
  rewrite Hp. reflexivity.
Qed.

Lemma coalesce_step_out_of_range (c : connection) (i : nat) :
  reqs_ c !! i = None → coalesce_step c i = OutOfRange.
Proof. intros Hp. unfold coalesce_step, at_. by rewrite Hp. Qed.

Lemma for_loop_coalesce (l pre post : list ptr) (c : connection) :
  reqs_ c = pre ++ l ++ post →
  for_loop coalesce_step (length pre) (length l) c
  = Done (foldl coalesce_entry c l).
Proof.
  revert pre c. induction l as [|p l IH]; intros pre c Hq; [done|].
  simpl. rewrite (coalesce_step_at c (length pre) p).
  2:{ rewrite Hq. by apply list_lookup_middle. }
  change (S (length pre)) with (length [p] + length pre)%nat.
  rewrite Nat.add_comm, <- length_app.
  apply (IH (pre ++ [p])). simpl. rewrite Hq.
  by rewrite <- app_assoc.
Qed.

Lemma payload_at_coalesce_entry (c : connection) (p q : ptr) :
  payload_at (coalesce_entry c p) q = payload_at c q.
Proof.
  unfold payload_at, coalesce_entry, update. cbn [infos set_infos set_cmds
    set_write_buffer].
  rewrite lookup_alter. case_decide; [subst|done]. by destruct (infos c !! q).
Qed.

Lemma size_at_coalesce_entry (c : connection) (p q : ptr) :
  size_at (coalesce_entry c p) q = size_at c q.
Proof.
  unfold size_at, coalesce_entry, update. cbn [infos set_infos set_cmds
    set_write_buffer].
  rewrite lookup_alter. case_decide; [subst|done]. by destruct (infos c !! q).
Qed.

Lemma fold_coalesce_entry (l : list ptr) (c : connection) :
  foldl coalesce_entry c l =
  {| socket_ := socket_ c; cfg_ := cfg_ c; read_buffer_ := read_buffer_ c;
     write_buffer_ :=
       write_buffer_ c +:+ foldr String.append "" (List.map (payload_at c) l);
     cmds_ := foldl (λ n s, wrap (n + s)) (cmds_ c) (List.map (size_at c) l);
     reqs_ := reqs_ c;
     infos := foldl (λ h q, alter mark_written q h) (infos c) l;
     calls := calls c |}.
Proof.
  revert c. induction l as [|p l IH]; intros c; simpl.
  - rewrite string_app_nil_r. by destruct c.
  - rewrite IH. cbn [coalesce_entry update socket_ cfg_ read_buffer_
      write_buffer_ cmds_ reqs_ infos calls set_infos set_cmds set_write_buffer].
    rewrite (map_ext _ _ (payload_at_coalesce_entry c p)).
    rewrite (map_ext _ _ (size_at_coalesce_entry c p)).
    by rewrite string_app_assoc.
Qed.

Lemma fold_wrap_add (n : Z) (l : list Z) :
  l ≠ [] → foldl (λ n s, wrap (n + s)) n l = wrap (n + foldr Z.add 0 l).
Proof.
  revert n. induction l as [|x l IH]; intros n Hl; [done|]. simpl.
  destruct l as [|y l].
  - simpl. by rewrite Z.add_0_r.
  - rewrite IH by done. unfold wrap.
    rewrite Zplus_mod_idemp_l. f_equal. lia.
Qed.

Lemma coalesced_prefix (c : connection) : coalesced c `prefix_of` reqs_ c.
Proof. apply prefix_take. Qed.

Lemma coalesced_nonempty (c : connection) : reqs_ c ≠ [] → coalesced c ≠ [].
Proof.
  unfold coalesced. destruct (reqs_ c) as [|p q]; [done|]. intros _.
  by destruct (Config.coalesce_requests _).
Qed.

(** What [coalesce_requests] returns once its two assertions hold. *)
Lemma coalesce_requests_eq (ndebug : bool) (c : connection) :
  write_buffer_ c = "" → reqs_ c ≠ [] →
  coalesce_requests ndebug c = Done (foldl coalesce_entry c (coalesced c)).
Proof.
  intros Hb Hq. unfold coalesce_requests, BOOST_ASSERT.
  rewrite (bool_decide_true _ Hb), (bool_decide_false _ Hq).
  cbn [negb]. rewrite !orb_true_r. cbn [mbind outcome_bind].
  destruct (prefix_take (reqs_ c)
    (if Config.coalesce_requests (cfg_ c) then length (reqs_ c) else 1%nat))
    as [post Hpost].
  fold (coalesced c) in Hpost.
  assert (Hlen : length (coalesced c)
    = if Config.coalesce_requests (cfg_ c) then length (reqs_ c) else 1%nat).
  { unfold coalesced. rewrite length_take.
    destruct (Config.coalesce_requests _); [lia|].
    destruct (reqs_ c); [done|simpl; lia]. }
  rewrite <- Hlen.
  apply (for_loop_coalesce (coalesced c) [] post). exact Hpost.
Qed.

Lemma coalesce_requests_coalesces (c : connection) :
  coalesced c ≠ [] →
  coalesces (coalesced c) c (foldl coalesce_entry c (coalesced c)).
Proof.
  intros Hne. rewrite fold_coalesce_entry. unfold coalesces.
  cbn [write_buffer_ cmds_ infos reqs_].
  split; [done|]. split.
  { apply fold_wrap_add. by destruct (coalesced c). }
  split; [|split; [|done]].
  - intros p Hp. by apply fold_alter_in.
  - intros p Hp. by apply fold_alter_notin.
Qed.

(** C1, as the code has it. When the writer coalesces, it starts at the
    head of the queue and includes the whole queue if the connection is
    configured with [coalesce_requests], and the head entry alone otherwise,
    whatever the [written] mark and the per-request [coalesce] flag of the
    entries; it always includes at least one entry.  Every included entry is
    marked [written = true], [cmds_] grows by the sum of the command counts
    of the included requests (in [std::size_t] arithmetic) and the payloads
    are appended to the write buffer in queue order. *)
Theorem coalesce_requests_whole_queue (ndebug : bool) (c : connection) :
  write_buffer_ c = "" → reqs_ c ≠ [] →
  ∃ c', coalesce_requests ndebug c = Done c'
    ∧ coalesced c = (if Config.coalesce_requests (cfg_ c)
                     then reqs_ c else take 1 (reqs_ c))
    ∧ coalesced c `prefix_of` reqs_ c
    ∧ coalesced c ≠ []
    ∧ coalesces (coalesced c) c c'
    ∧ (∀ p, p ∈ coalesced c → is_Some (infos c !! p) →
         written <$> infos c' !! p = Some true)
    ∧ (0 ≤ cmds_ c + foldr Z.add 0 (List.map (size_at c) (coalesced c))
         < size_max →
       cmds_ c'
       = cmds_ c + foldr Z.add 0 (List.map (size_at c) (coalesced c)))
    ∧ calls c' = calls c ∧ socket_ c' = socket_ c ∧ cfg_ c' = cfg_ c
    ∧ read_buffer_ c' = read_buffer_ c.
Proof.
  intros Hb Hq. exists (foldl coalesce_entry c (coalesced c)).
  split; [by apply coalesce_requests_eq|].
  pose proof (coalesce_requests_coalesces c (coalesced_nonempty c Hq)) as Hco.
  split.
  { unfold coalesced. destruct (Config.coalesce_requests _); [|done].
    apply firstn_all. }
  split; [apply coalesced_prefix|]. split; [by apply coalesced_nonempty|].
  split; [exact Hco|].
  destruct Hco as (_ & Hcmds & Hin & _ & _).
  split.
  { intros p Hp [e He]. rewrite (Hin p Hp), He. done. }
  split.
  { intros Hrange. rewrite Hcmds. unfold wrap. by apply Z.mod_small. }
  by rewrite fold_coalesce_entry.
Qed.

Lemma coalesce_requests_whole_queue_witness :
  ∃ c', coalesce_requests false two_queued = Done c'
    ∧ coalesced two_queued = [0; 1]%nat
    ∧ written <$> infos c' !! 0%nat = Some true
    ∧ written <$> infos c' !! 1%nat = Some true
    ∧ cmds_ c' = 2
    ∧ write_buffer_ c'
      = payload (ping "a" plain) +:+ payload (ping "b" no_coalesce).
Proof.
  destruct (coalesce_requests_whole_queue false two_queued)
    as (c' & Hc & Hall & _ & _ & Hco & Hw & Hcmds & _);
    [reflexivity | discriminate |].
  exists c'. split; [exact Hc|]. split; [rewrite Hall; reflexivity|].
  split; [apply Hw; [decide_by_computation | by eexists]|].
  split; [apply Hw; [decide_by_computation | by eexists]|].
  split; [rewrite Hcmds; [reflexivity | vm_compute; split; congruence]|].
  destruct Hco as (Hbuf & _). rewrite Hbuf. vm_compute. reflexivity.
Defined.

(** C1 as the specification words it fails on the code: on a connection
    configured to coalesce, an entry whose request has [coalesce = false]
    is included all the same, and so is an entry that is already written. *)
Lemma coalesce_requests_ignores_entry_flags :
  (spec_coalesced two_queued = [0]%nat
   ∧ ∃ c', coalesce_requests false two_queued = Done c'
       ∧ test (λ e, coalesce (cfg (req e))) two_queued 1%nat = false
       ∧ written <$> infos two_queued !! 1%nat = Some false
       ∧ written <$> infos c' !! 1%nat = Some true
       ∧ write_buffer_ c'
         = payload (ping "a" plain) +:+ payload (ping "b" no_coalesce)
       ∧ ¬ coalesces (spec_coalesced two_queued) two_queued c')
  ∧ (spec_coalesced mixed_queue = [0; 1]%nat
     ∧ ∃ c', coalesce_requests false mixed_queue = Done c'
         ∧ written <$> infos mixed_queue !! 2%nat = Some true
         ∧ cmds_ c' = 3
         ∧ ¬ coalesces (spec_coalesced mixed_queue) mixed_queue c').
Proof.
  split.
  - split; [reflexivity|]. eexists.
    split; [apply coalesce_requests_eq; [reflexivity | discriminate]|].
    split; [reflexivity|]. split; [reflexivity|].
    split; [vm_compute; reflexivity|]. split; [vm_compute; reflexivity|].
    intros (Hbuf & _). vm_compute in Hbuf. discriminate Hbuf.
  - split; [reflexivity|]. eexists.
    split; [apply coalesce_requests_eq; [reflexivity | discriminate]|].
    split; [reflexivity|]. split; [vm_compute; reflexivity|].
    intros (_ & Hcmds & _). vm_compute in Hcmds. discriminate Hcmds.
Qed.

End QueueFacts.

(** ** Submission *)

Section SubmissionFacts.

Import Request Connection.

(** C2, as the code has it. [async_exec] asserts that the command count of
    the request does not exceed the [supported_response_size] of the
    adapter.  A request within that size passes and is handed to [exec_op].
    A larger request stops at the assertion when assertions are compiled in,
    and is handed to [exec_op] like any other when they are compiled out; no
    submission completes with [incompatible_size]. *)
Theorem async_exec_size_assertion (ndebug : bool) (r : request) (a : adapter)
    (c : connection) :
  (size r ≤ supported_response_size a →
     async_exec ndebug r a c = Done (exec_op_start r a c))
  ∧ (supported_response_size a < size r →
     async_exec false r a c = AssertionFailed
     ∧ async_exec true r a c = Done (exec_op_start r a c))
  ∧ (∀ n c', async_exec ndebug r a c
             ≠ Done (completed (Some incompatible_size) n, c')).
Proof.
  unfold async_exec, BOOST_ASSERT. split; [|split].
  - intros Hle. apply Z.leb_le in Hle. rewrite Hle, orb_true_r. done.
  - intros Hlt. apply Z.leb_gt in Hlt. rewrite Hlt. done.
  - intros n c'. destruct (ndebug || _); [|done]. simpl.
    unfold exec_op_start. destruct (_ && negb _); congruence.
Qed.

Lemma async_exec_size_assertion_witness :
  async_exec false (ping "a" plain) adapt_one (make_connection Config.default)
  = Done (exec_op_start (ping "a" plain) adapt_one
            (make_connection Config.default))
  ∧ async_exec false (hello_then_ping plain) adapt_one
      (make_connection Config.default)
    = AssertionFailed.
Proof.
  split.
  - destruct (async_exec_size_assertion false (ping "a" plain) adapt_one
                (make_connection Config.default)) as (Hle & _ & _).
    apply Hle. vm_compute. congruence.
  - destruct (async_exec_size_assertion false (hello_then_ping plain)
                adapt_one (make_connection Config.default)) as (_ & Hgt & _).
    apply Hgt. reflexivity.
Defined.

(** C2 as the specification words it fails on the code: a request of two
    commands submitted with an adapter for one response is not rejected with
    [incompatible_size]: the assertion fails, or, with
    assertions compiled out, the request is queued. *)
Lemma async_exec_no_incompatible_size :
  supported_response_size adapt_one < size (hello_then_ping plain)
  ∧ async_exec false (hello_then_ping plain) adapt_one
      (make_connection Config.default)
    = AssertionFailed
  ∧ (∃ c', async_exec true (hello_then_ping plain) adapt_one
             (make_connection Config.default)
           = Done (waiting 0%nat, c')
         ∧ reqs_ c' = [0%nat])
  ∧ ¬ (∃ ndebug n c',
         async_exec ndebug (hello_then_ping plain) adapt_one
           (make_connection Config.default)
         = Done (completed (Some incompatible_size) n, c')).
Proof.
  split; [reflexivity|]. split; [reflexivity|]. split.
  - eexists. split; [vm_compute; reflexivity|reflexivity].
  - intros (nd & n & c' & H). destruct nd; vm_compute in H; discriminate H.
Qed.

(** C7. A request submitted with [cancel_if_not_connected] while the
    connection is not connected fails at once with [not_connected]; the
    connection, and with it the queue, is left as it was. *)
Theorem async_exec_not_connected (ndebug : bool) (r : request) (a : adapter)
    (c : connection) :
  cancel_if_not_connected (cfg r) = true →
  socket_is_open c = false →
  exec_op_start r a c = (completed (Some not_connected) 0, c)
  ∧ (ndebug = true ∨ size r ≤ supported_response_size a →
     async_exec ndebug r a c = Done (completed (Some not_connected) 0, c)
     ∧ ∀ st c', async_exec ndebug r a c = Done (st, c') →
                reqs_ c' = reqs_ c ∧ infos c' = infos c).
Proof.
  intros Hflag Hsock.
  assert (Hop : exec_op_start r a c = (completed (Some not_connected) 0, c)).
  { unfold exec_op_start. by rewrite Hflag, Hsock. }
  split; [exact Hop|]. intros Hassert.
  assert (Heq : async_exec ndebug r a c
                = Done (completed (Some not_connected) 0, c)).
  { unfold async_exec, BOOST_ASSERT. rewrite Hop.
    destruct Hassert as [->|Hsize]; [done|].
    apply Z.leb_le in Hsize. by rewrite Hsize, orb_true_r. }
  split; [exact Heq|]. intros st c'. rewrite Heq. by intros [= _ <-].
Qed.

Lemma async_exec_not_connected_witness :
  async_exec false (hello_then_ping fail_fast) adapt_ignore
    (make_connection Config.default)
  = Done (completed (Some not_connected) 0, make_connection Config.default).
Proof.
  destruct (async_exec_not_connected false (hello_then_ping fail_fast)
              adapt_ignore (make_connection Config.default))
    as [_ Hexec]; [reflexivity | reflexivity |].
  apply Hexec. right. vm_compute. congruence.
Defined.

End SubmissionFacts.

(** ** The reader *)

Section ReaderFacts.

Import Request Connection.

Lemma on_frame_push (f : frame) (r : running) :
  is_push f = true → on_frame f r = Some (deliver_push f r).
Proof. unfold on_frame. by intros ->. Qed.

Lemma on_frame_not_push (f : frame) (r : running) :
  is_push f = false → on_frame f r = dispatch f r.
Proof. unfold on_frame. by intros ->. Qed.

(** What a successful [dispatch] does. *)
Lemma dispatch_Some (f : frame) (r r' : running) :
  dispatch f r = Some r' →
  ∃ p rest e,
    reqs_ (conn r) = p :: rest
    ∧ infos (conn r) !! p = Some e
    ∧ 0 < cmds e
    ∧ infos (conn r') = <[p := decrement_cmds e]> (infos (conn r))
    ∧ reqs_ (conn r') = (if cmds e =? 1 then rest else p :: rest)
    ∧ finished r'
      = finished r
        ++ (if cmds e =? 1
            then [(p, default 0 (read_size r !! p) + wire_size f)] else [])
    ∧ pushes r' = pushes r
    ∧ adapter_calls r'
      = adapter_calls r
        ++ List.map (λ n, {| target := p; index := size (req e) - cmds e;
                             seen := n |}) (nodes f).
Proof.
  unfold dispatch. destruct (reqs_ (conn r)) as [|p rest] eqn:Hq; [done|].
  destruct (infos (conn r) !! p) as [e|] eqn:He; [|done].
  destruct (cmds e <=? 0) eqn:Hpos; [done|]. apply Z.leb_gt in Hpos.
  assert (Halter : alter decrement_cmds p (infos (conn r))
                   = <[p := decrement_cmds e]> (infos (conn r))).
  { apply map_eq. intros q. rewrite lookup_alter, lookup_insert.
    case_decide; [subst; by rewrite He|done]. }
  assert (Hone : (cmds e - 1 =? 0) = (cmds e =? 1)).
  { destruct (cmds e =? 1) eqn:H1; [apply Z.eqb_eq in H1|apply Z.eqb_neq in H1].
    - apply Z.eqb_eq. lia.
    - apply Z.eqb_neq. lia. }
  rewrite Hone.
  destruct (cmds e =? 1) eqn:H1; intros [= <-]; exists p, rest, e;
    cbn [conn finished pushes adapter_calls infos reqs_ update set_infos
         set_reqs]; rewrite Halter, H1, ?Hq, ?app_nil_r; done.
Qed.

Lemma map_seen_calls (p : ptr) (i : Z) (ns : list Resp3.node) :
  List.map seen (List.map (λ n, {| target := p; index := i; seen := n |}) ns)
  = ns.
Proof. rewrite map_map. simpl. apply map_id. Qed.

(** One frame extends the two logs according to its root type. *)
Lemma on_frame_logs (f : frame) (r r' : running) :
  on_frame f r = Some r' →
  ∃ ks, adapter_calls r' = adapter_calls r ++ ks
        ∧ List.map seen ks = (if is_push f then [] else nodes f)
        ∧ pushes r' = pushes r ++ (if is_push f then [f] else []).
Proof.
  unfold on_frame. destruct (is_push f) eqn:Hp.
  - intros [= <-]. exists []. simpl. by rewrite app_nil_r.
  - intros Hd. apply dispatch_Some in Hd
      as (p & rest & e & _ & _ & _ & _ & _ & _ & Hpu & Hca).
    eexists. split; [exact Hca|]. rewrite map_seen_calls, Hpu, app_nil_r. done.
Qed.

Lemma reader_logs (fs : list frame) (r : running) :
  ∃ done ks,
    fs = done ++ (reader fs r).2
    ∧ adapter_calls (reader fs r).1 = adapter_calls r ++ ks
    ∧ List.map seen ks = nodes_of (List.filter not_push done)
    ∧ pushes (reader fs r).1 = pushes r ++ List.filter is_push done
    ∧ match (reader fs r).2 with
      | [] => True
      | f :: _ => on_frame f (reader fs r).1 = None
      end.
Proof.
  revert r. induction fs as [|f fs IH]; intros r.
  { exists [], []. simpl. by rewrite !app_nil_r. }
  simpl. destruct (on_frame f r) as [r1|] eqn:Hf.
  - destruct (IH r1) as (done & ks & Hfs & Hca & Hseen & Hpu & Hstop).
    destruct (on_frame_logs f r r1 Hf) as (ks1 & Hca1 & Hseen1 & Hpu1).
    exists (f :: done), (ks1 ++ ks).
    split; [simpl; by rewrite <- Hfs|].
    split; [by rewrite Hca, Hca1, app_assoc|].
    split.
    { rewrite map_app, Hseen1, Hseen. unfold nodes_of, not_push. simpl.
      by destruct (is_push f). }
    split; [|exact Hstop].
    rewrite Hpu, Hpu1. simpl. destruct (is_push f); simpl;
      by rewrite <- app_assoc.
  - exists [], []. simpl. by rewrite !app_nil_r.
Qed.

(** A frame that is not a push is taken whenever the head entry still
    expects a response, and only then. *)
Lemma dispatch_progress (f : frame) (r : running) (p : ptr) (rest : list ptr)
    (e : req_info) :
  reqs_ (conn r) = p :: rest → infos (conn r) !! p = Some e → 0 < cmds e →
  ∃ r', dispatch f r = Some r'.
Proof.
  intros Hq He Hpos. unfold dispatch. rewrite Hq, He.
  apply Z.leb_gt in Hpos. rewrite Hpos. destruct (_ =? 0); by eexists.
Qed.

Lemma dispatch_None (f : frame) (r : running) :
  dispatch f r = None
  ↔ ¬ ∃ p rest e, reqs_ (conn r) = p :: rest
                  ∧ infos (conn r) !! p = Some e ∧ 0 < cmds e.
Proof.
  split.
  - intros Hnone (p & rest & e & Hq & He & Hpos).
    destruct (dispatch_progress f r p rest e Hq He Hpos) as [r' Hr'].
    congruence.
  - intros Hno. destruct (dispatch f r) as [r'|] eqn:Hd; [|done].
    apply dispatch_Some in Hd as (p & rest & e & Hq & He & Hpos & _).
    destruct Hno. by exists p, rest, e.
Qed.

(** A dispatched frame takes exactly one unit off what the queue expects and
    leaves every queued entry expecting a response. *)
Lemma dispatch_expecting (f : frame) (r r' : running) :
  expecting (conn r) → dispatch f r = Some r' →
  expecting (conn r') ∧ outstanding (conn r') = outstanding (conn r) - 1.
Proof.
  intros [Hnd Hall] Hd. apply dispatch_Some in Hd
    as (p & rest & e & Hq & He & Hpos & Hinfos & Hq' & _).
  rewrite Hq in Hnd, Hall. apply NoDup_cons in Hnd as [Hp Hnd].
  apply Forall_cons in Hall as [_ Hrest].
  assert (Hother : ∀ q, q ∈ rest → infos (conn r') !! q = infos (conn r) !! q).
  { intros q Hin. rewrite Hinfos, lookup_insert_ne; [done|]. by intros ->. }
  assert (Hrest' : Forall (λ q, ∃ e', infos (conn r') !! q = Some e'
                                      ∧ 0 < cmds e') rest).
  { rewrite Forall_forall in Hrest. apply Forall_forall. intros q Hin.
    rewrite (Hother q Hin). by apply Hrest. }
  assert (Hsum : foldr Z.add 0
      (List.map (λ q, from_option cmds 0 (infos (conn r') !! q)) rest)
    = foldr Z.add 0
        (List.map (λ q, from_option cmds 0 (infos (conn r) !! q)) rest)).
  { f_equal. apply map_ext_in. intros q Hin. apply list_elem_of_In in Hin.
    by rewrite (Hother q Hin). }
  assert (Hhead : infos (conn r') !! p = Some (decrement_cmds e))
    by by rewrite Hinfos, lookup_insert_eq.
  unfold expecting, outstanding. rewrite Hq', Hq. simpl. rewrite He. simpl.
  destruct (cmds e =? 1) eqn:Hone.
  - apply Z.eqb_eq in Hone. split; [by split|]. rewrite Hsum. lia.
  - apply Z.eqb_neq in Hone. split.
    + split; [by constructor|]. constructor; [|done].
      exists (decrement_cmds e). split; [done|]. simpl. lia.
    + simpl. rewrite Hhead, Hsum. simpl. lia.
Qed.

Lemma outstanding_positive (c : connection) :
  expecting c → 0 < outstanding c →
  ∃ p rest e, reqs_ c = p :: rest ∧ infos c !! p = Some e ∧ 0 < cmds e.
Proof.
  intros [_ Hall] Hpos. unfold outstanding in Hpos.
  destruct (reqs_ c) as [|p rest]; [simpl in Hpos; lia|].
  apply Forall_cons in Hall as [(e & He & Hcmds) _]. by exists p, rest, e.
Qed.

(** While the queue expects at least as many responses as there are frames
    that are not pushes, the reader gets through all the frames. *)
Lemma reader_complete (fs : list frame) (r : running) :
  expecting (conn r) →
  Z.of_nat (length (List.filter not_push fs)) ≤ outstanding (conn r) →
  (reader fs r).2 = []
  ∧ expecting (conn (reader fs r).1)
  ∧ outstanding (conn (reader fs r).1)
    = outstanding (conn r) - Z.of_nat (length (List.filter not_push fs)).
Proof.
  revert r. induction fs as [|f fs IH]; intros r Hexp Hlen.
  { simpl. split; [done|]. split; [done|]. lia. }
  cbn [reader]. unfold on_frame. destruct (is_push f) eqn:Hpush.
  - assert (Hf : List.filter not_push (f :: fs) = List.filter not_push fs).
    { simpl. unfold not_push at 1. by rewrite Hpush. }
    rewrite Hf in Hlen |- *. apply (IH (deliver_push f r)); done.
  - assert (Hf : List.filter not_push (f :: fs)
                 = f :: List.filter not_push fs).
    { simpl. unfold not_push at 1. by rewrite Hpush. }
    rewrite Hf in Hlen |- *. cbn [length] in Hlen |- *.
    rewrite Nat2Z.inj_succ in Hlen |- *.
    destruct (outstanding_positive (conn r) Hexp)
      as (p & rest & e & Hq & He & Hpos); [lia|].
    destruct (dispatch_progress f r p rest e Hq He Hpos) as [r' Hr'].
    rewrite Hr'. destruct (dispatch_expecting f r r' Hexp Hr') as [Hexp' Hout].
    destruct (IH r' Hexp') as (Hrest & Hfinal & Hsum); [lia|].
    split; [done|]. split; [done|]. lia.
Qed.

(** C6. The adapter of a submission never sees a node of a frame whose root
    type is push.  Every completed top-level frame with root type push is
    handed to the push rendezvous and leaves the queue and the adapters
    alone.  Every other completed top-level frame goes to the adapter of the
    head entry and takes exactly one unit off its [cmds], as long as the
    head entry expects a response; the reader stops only at a frame that is
    not a push and that no head entry expects.  Over a run of the reader the
    adapters see exactly the nodes of the frames that are not pushes, the
    rendezvous receives exactly the pushes, and when the queued entries
    expect at least as many responses as arrive, every frame is handled and
    each response takes one unit off what the queue expects. *)
Theorem reader_push_isolation :
  (∀ f r, is_push f = true →
     on_frame f r = Some (deliver_push f r)
     ∧ conn (deliver_push f r) = conn r
     ∧ adapter_calls (deliver_push f r) = adapter_calls r
     ∧ finished (deliver_push f r) = finished r
     ∧ pushes (deliver_push f r) = pushes r ++ [f])
  ∧ (∀ f r p rest e, is_push f = false →
     reqs_ (conn r) = p :: rest → infos (conn r) !! p = Some e → 0 < cmds e →
     ∃ r', on_frame f r = Some r'
       ∧ infos (conn r') !! p = Some (decrement_cmds e)
       ∧ cmds (decrement_cmds e) = cmds e - 1
       ∧ (∀ q, q ≠ p → infos (conn r') !! q = infos (conn r) !! q)
       ∧ reqs_ (conn r') = (if cmds e =? 1 then rest else p :: rest)
       ∧ pushes r' = pushes r
       ∧ adapter_calls r'
         = adapter_calls r
           ++ List.map (λ n, {| target := p; index := size (req e) - cmds e;
                                seen := n |}) (nodes f))
  ∧ (∀ f r, is_push f = false →
     on_frame f r = None
     ↔ ¬ ∃ p rest e, reqs_ (conn r) = p :: rest
                     ∧ infos (conn r) !! p = Some e ∧ 0 < cmds e)
  ∧ (∀ fs r, ∃ done,
       fs = done ++ (reader fs r).2
       ∧ observed r (reader fs r).1 = nodes_of (List.filter not_push done)
       ∧ pushes (reader fs r).1 = pushes r ++ List.filter is_push done
       ∧ Forall (λ f, root_type f ≠ Resp3.push) (List.filter not_push done)
       ∧ Forall (λ f, root_type f = Resp3.push) (List.filter is_push done))
  ∧ (∀ fs r, expecting (conn r) →
       Z.of_nat (length (List.filter not_push fs)) ≤ outstanding (conn r) →
       (reader fs r).2 = []
       ∧ observed r (reader fs r).1 = nodes_of (List.filter not_push fs)
       ∧ pushes (reader fs r).1 = pushes r ++ List.filter is_push fs
       ∧ outstanding (conn (reader fs r).1)
         = outstanding (conn r)
           - Z.of_nat (length (List.filter not_push fs))).
Proof.
  assert (Hlogs : ∀ fs r, ∃ done,
       fs = done ++ (reader fs r).2
       ∧ observed r (reader fs r).1 = nodes_of (List.filter not_push done)
       ∧ pushes (reader fs r).1 = pushes r ++ List.filter is_push done).
  { intros fs r.
    destruct (reader_logs fs r) as (done & ks & Hfs & Hca & Hseen & Hpu & _).
    exists done. split; [done|]. split; [|done].
    unfold observed. by rewrite Hca, drop_app_length. }
  split; [|split; [|split; [|split]]].
  - intros f r Hp. by rewrite on_frame_push.
  - intros f r p rest e Hp Hq He Hpos.
    destruct (dispatch_progress f r p rest e Hq He Hpos) as [r' Hr'].
    exists r'. rewrite on_frame_not_push by done. split; [done|].
    apply dispatch_Some in Hr'
      as (p' & rest' & e' & Hq' & He' & _ & Hinfos & Hreqs & _ & Hpu & Hca).
    rewrite Hq in Hq'. injection Hq' as <- <-.
    rewrite He in He'. injection He' as <-.
    split; [by rewrite Hinfos, lookup_insert_eq|]. split; [done|].
    split; [intros q Hne; by rewrite Hinfos, lookup_insert_ne|]. done.
  - intros f r Hp. rewrite on_frame_not_push by done. apply dispatch_None.
  - intros fs r. destruct (Hlogs fs r) as (done & Hfs & Hobs & Hpu).
    exists done. split; [done|]. split; [done|]. split; [done|]. split.
    + apply Forall_forall. intros f Hin. apply elem_of_filter_bool in Hin as [_ Hnp].
      unfold not_push, is_push in Hnp. apply negb_true_iff in Hnp.
      by apply bool_decide_eq_false in Hnp.
    + apply Forall_forall. intros f Hin. apply elem_of_filter_bool in Hin as [_ Hp].
      unfold is_push in Hp. by apply bool_decide_eq_true in Hp.
  - intros fs r Hexp Hlen.
    destruct (reader_complete fs r Hexp Hlen) as (Hrest & _ & Hout).
    destruct (Hlogs fs r) as (done & Hfs & Hobs & Hpu).
    rewrite Hrest, app_nil_r in Hfs. subst done. done.
Qed.

Lemma reader_push_isolation_witness :
  on_frame message_push one_in_flight
  = Some (deliver_push message_push one_in_flight)
  ∧ (∃ r', on_frame ok_frame one_in_flight = Some r'
           ∧ cmds <$> infos (conn one_in_flight) !! 0%nat = Some 2
           ∧ cmds <$> infos (conn r') !! 0%nat = Some 1
           ∧ pushes r' = [])
  ∧ (reader [hello_frame; message_push; pong_frame] one_in_flight).2 = []
  ∧ pushes (reader [hello_frame; message_push; pong_frame] one_in_flight).1
    = [message_push]
  ∧ outstanding
      (conn (reader [hello_frame; message_push; pong_frame] one_in_flight).1)
    = 0.
Proof.
  destruct reader_push_isolation as (Hpush & Hother & _ & _ & Hrun).
  split; [apply Hpush; reflexivity|]. split.
  - destruct (Hother ok_frame one_in_flight 0%nat []
                {| req := hello_then_ping plain; cmds := 2; stop := false;
                   written := true |})
      as (r' & Hr' & He' & _ & _ & _ & Hp & _);
      [reflexivity | reflexivity | reflexivity | reflexivity |].
    exists r'. split; [exact Hr'|]. split; [reflexivity|].
    split; [rewrite He'; reflexivity|exact Hp].
  - destruct (Hrun [hello_frame; message_push; pong_frame] one_in_flight)
      as (Hrest & _ & Hpu & Hout).
    + split; [decide_by_computation|].
      constructor; [|constructor]. eexists. split; reflexivity.
    + vm_compute. congruence.
    + split; [exact Hrest|]. split; [exact Hpu|]. rewrite Hout. reflexivity.
Defined.

(** The submission [HELLO 3; PING; SUBSCRIBE channel; QUIT] expects three
    frames.  Its adapter is called with the replies to [HELLO], [PING] and
    [QUIT] at the indices 0, 1 and 2; the confirmation of the subscription
    goes to the push rendezvous. *)
Example push_filtered_out :
  let r := (reader [hello_frame; pong_frame; subscribe_push; ok_frame]
                   subscribing).1 in
  cmds <$> infos (conn subscribing) !! 0%nat = Some 3
  ∧ List.map (λ k, (index k, Resp3.data (seen k))) (adapter_calls r)
    = [(0, ""); (0, "server"); (0, "redis"); (1, "PONG"); (2, "OK")]
  ∧ pushes r = [subscribe_push]
  ∧ finished r = [(0%nat, 39)]
  ∧ reqs_ (conn r) = [].
Proof. vm_compute. done. Qed.

End ReaderFacts.

(** ** Hello priority *)

Section PriorityFacts.

Import Request Connection.

Lemma fresh_not_queued (c : connection) :
  queue_live c → fresh (dom (infos c)) ∉ reqs_ c.
Proof.
  intros Hlive Hin. unfold queue_live in Hlive.
  rewrite Forall_forall in Hlive. apply Hlive in Hin.
  apply elem_of_dom in Hin. by apply is_fresh in Hin.
Qed.

Lemma add_request_info_reqs (p : ptr) (c : connection) :
  reqs_ (add_request_info p c) = reqs_ c ++ [p].
Proof. unfold add_request_info. by destruct (_ && _ && _). Qed.

(** A submission that is not turned away allocates a new entry and queues
    it at the tail. *)
Lemma exec_op_start_enqueues (r : request) (a : adapter) (c : connection) :
  queue_live c →
  (cancel_if_not_connected (cfg r) && negb (socket_is_open c)) = false →
  ∃ p c',
    exec_op_start r a c = (waiting p, c')
    ∧ (p ∉ reqs_ c)
    ∧ infos c' = <[p := {| req := r; cmds := size r; stop := false;
                           written := false |}]> (infos c)
    ∧ infos c !! p = None
    ∧ reqs_ c' = reqs_ c ++ [p].
Proof.
  intros Hlive Hgo. unfold exec_op_start. rewrite Hgo.
  set (p := fresh (dom (infos c))).
  assert (Hp : p ∉ reqs_ c) by by apply fresh_not_queued.
  assert (Hnone : infos c !! p = None).
  { apply not_elem_of_dom. apply is_fresh. }
  eexists p, _. split; [reflexivity|]. split; [done|].
  unfold add_request_info. by destruct (_ && _ && _).
Qed.

Lemma reader_replies (fs : list frame) (r : running) :
  Forall (λ f, is_push f = false) fs → reader fs r = drain fs r.
Proof.
  intros Hfs. revert r. induction Hfs as [|f fs Hf Hfs IH]; intros r; [done|].
  simpl. rewrite on_frame_not_push by done.
  destruct (dispatch f r); [apply IH|done].
Qed.



End PriorityFacts.

(** ** The queue invariant

    The operations keep the pointers of the queue live and pairwise
    distinct, which is what the statements above assume of a queue. *)

Section InvariantFacts.

Import Request Connection.

Lemma queue_live_mono (c c' : connection) :
  reqs_ c' ⊆ reqs_ c → dom (infos c) ⊆ dom (infos c') →
  queue_live c → queue_live c'.
Proof.
  unfold queue_live. rewrite !Forall_forall. intros Hq Hdom Hlive p Hp.
  apply elem_of_dom, Hdom, elem_of_dom. apply Hlive. by apply Hq.
Qed.

Lemma dom_fold_alter (f : req_info → req_info) (l : list ptr)
    (h : gmap ptr req_info) :
  dom (foldl (λ h q, alter f q h) h l) = dom h.
Proof.
  revert h. induction l as [|q l IH]; intros h; simpl; [done|].
  by rewrite IH, dom_alter_L.
Qed.

Lemma make_connection_wf (cfg : Config.config) :
  queue_wf (make_connection cfg).
Proof. split; [constructor|]. by apply Forall_nil. Qed.

Lemma cancel_exec_wf (c : connection) : queue_wf (cancel exec c).2.
Proof.
  rewrite cancel_exec_eq. split; [constructor|]. by apply Forall_nil.
Qed.

Lemma cancel_run_wf (c : connection) : queue_wf c → queue_wf (cancel run c).2.
Proof.
  intros [Hnd Hlive]. pose proof (cancel_run_eq c) as Heq. cbv zeta in Heq.
  rewrite Heq. simpl. split.
  - cbn [reqs_]. eapply sublist_NoDup; [done|apply sublist_filter_bool].
  - eapply queue_live_mono; [| |exact Hlive].
    + cbn [reqs_]. intros p Hp. by apply elem_of_filter_bool in Hp as [? _].
    + cbn [infos]. by rewrite dom_fold_alter.
Qed.

Lemma cancel_push_requests_wf (c : connection) :
  queue_wf c → queue_wf (cancel_push_requests c).
Proof.
  intros [Hnd Hlive]. rewrite cancel_push_requests_eq. split.
  - cbn [reqs_]. eapply sublist_NoDup; [done|apply sublist_filter_bool].
  - eapply queue_live_mono; [| |exact Hlive].
    + cbn [reqs_]. intros p Hp. by apply elem_of_filter_bool in Hp as [? _].
    + done.
Qed.

Lemma coalesce_requests_wf (ndebug : bool) (c c' : connection) :
  coalesce_requests ndebug c = Done c' → queue_wf c → queue_wf c'.
Proof.
  unfold coalesce_requests, BOOST_ASSERT.
  destruct (ndebug || bool_decide _); [|done].
  destruct (ndebug || negb _); [|done]. cbn [mbind outcome_bind].
  intros Hloop [Hnd Hlive].
  assert (Hgen : ∀ n i c1 c2,
            for_loop coalesce_step i n c1 = Done c2 →
            reqs_ c2 = reqs_ c1 ∧ dom (infos c2) = dom (infos c1)).
  { induction n as [|n IH]; intros i c1 c2; simpl.
    - by intros [= <-].
    - destruct (reqs_ c1 !! i) as [p|] eqn:Hp.
      + rewrite (coalesce_step_at c1 i p Hp). cbn [mbind outcome_bind].
        intros Hrest. apply IH in Hrest as [-> ->].
        unfold coalesce_entry, update. cbn [reqs_ infos set_infos set_cmds
          set_write_buffer]. by rewrite dom_alter_L.
      + by rewrite (coalesce_step_out_of_range c1 i Hp). }
  apply Hgen in Hloop as [Hq Hdom]. split.
  - by rewrite Hq.
  - eapply queue_live_mono; [| |exact Hlive]; by rewrite ?Hq, ?Hdom.
Qed.

Lemma exec_op_start_wf (r : request) (a : adapter) (c : connection) :
  queue_wf c → queue_wf (exec_op_start r a c).2.
Proof.
  intros [Hnd Hlive].
  destruct (cancel_if_not_connected (cfg r) && negb (socket_is_open c))
    eqn:Hgo.
  { unfold exec_op_start. rewrite Hgo. by split. }
  destruct (exec_op_start_enqueues r a c Hlive Hgo)
    as (p & c' & -> & Hp & Hinfos & _ & Hq).
  simpl. split.
  - rewrite Hq. apply NoDup_app. split; [done|]. split.
    + intros x Hx Hx'. apply list_elem_of_singleton in Hx'. by subst.
    + apply NoDup_singleton.
  - unfold queue_live in *. rewrite Forall_forall in Hlive.
    apply Forall_forall. intros q Hin. rewrite Hq in Hin.
    rewrite Hinfos. apply elem_of_app in Hin as [Hin|Hin].
    + destruct (decide (p = q)) as [->|Hne]; [done|].
      rewrite lookup_insert_ne by done. by apply Hlive.
    + apply list_elem_of_singleton in Hin as ->.
      rewrite lookup_insert_eq. by eexists.
Qed.

Lemma on_frame_wf (f : frame) (r r' : running) :
  on_frame f r = Some r' → queue_wf (conn r) → queue_wf (conn r').
Proof.
  unfold on_frame. destruct (is_push f); [by intros [= <-]|].
  intros Hd [Hnd Hlive]. apply dispatch_Some in Hd
    as (p & rest & e & Hq & He & _ & Hinfos & Hq' & _).
  assert (Hsub : reqs_ (conn r') ⊆ reqs_ (conn r)).
  { rewrite Hq', Hq. destruct (cmds e =? 1); [|done].
    intros x Hx. by right. }
  split.
  - rewrite Hq'. rewrite Hq in Hnd. destruct (cmds e =? 1); [|done].
    by apply NoDup_cons in Hnd as [_ ?].
  - eapply queue_live_mono; [exact Hsub| |exact Hlive].
    rewrite Hinfos, dom_insert_L. set_solver.
Qed.

End InvariantFacts.

(** ** More on the RESP3 types *)

Section TypeFacts.

Import Resp3.

(** X1. The names [to_string] gives are pairwise distinct and never empty,
    so a name identifies its type; ["invalid"] is the name of [invalid]
    alone. *)
Theorem to_string_injective :
  (∀ t1 t2, to_string t1 = to_string t2 → t1 = t2)
  ∧ (∀ t, to_string t ≠ "")
  ∧ (∀ t, to_string t = "invalid" ↔ t = invalid)
  ∧ (∀ os t1 t2, write_type os t1 = write_type os t2 → t1 = t2).
Proof.
  assert (Hinj : ∀ t1 t2, to_string t1 = to_string t2 → t1 = t2).
  { intros t1 t2 H. destruct t1, t2; try reflexivity; discriminate H. }
  split; [exact Hinj|]. split; [by intros []|]. split.
  - intros t. split; [apply (Hinj t invalid)|by intros ->].
  - intros os t1 t2 H. apply Hinj. unfold write_type in H.
    by apply (String.app_inj os) in H.
Qed.

Lemma to_string_injective_witness :
  to_string map ≠ to_string attribute ∧ to_string (to_type "a"%char) = "invalid".
Proof.
  destruct to_string_injective as (Hinj & _ & Hinv & _). split.
  - intros H. apply Hinj in H. discriminate H.
  - apply Hinv. reflexivity.
Defined.

(** X2. [to_code] fails only for [invalid], and only when assertions are
    compiled in; it never throws.  Whenever it returns a byte, [to_type]
    maps that byte back to the type it came from, [invalid] included (with
    assertions compiled out [invalid] is written as a blank, which is not a
    sigil), so no two types share a byte. *)
Theorem to_code_failure_and_inverse :
  (∀ ndebug t, to_code ndebug t = AssertionFailed ↔ ndebug = false ∧ t = invalid)
  ∧ (∀ ndebug t, to_code ndebug t ≠ OutOfRange)
  ∧ (∀ ndebug t c, to_code ndebug t = Done c → to_type c = t)
  ∧ (∀ ndebug t1 t2 c,
       to_code ndebug t1 = Done c → to_code ndebug t2 = Done c → t1 = t2)
  ∧ to_code true invalid = Done " "%char.
Proof.
  assert (Hinv : ∀ ndebug t c, to_code ndebug t = Done c → to_type c = t).
  { intros nd t c H. destruct t; try (injection H as <-; reflexivity).
    destruct nd; [injection H as <-; reflexivity|discriminate H]. }
  split; [|split; [|split; [exact Hinv|split; [|reflexivity]]]].
  - intros nd t. split.
    + intros H. destruct t; try discriminate H. by destruct nd.
    + by intros [-> ->].
  - intros nd t. destruct t; try discriminate. by destruct nd.
  - intros nd t1 t2 c H1 H2. apply Hinv in H1, H2. congruence.
Qed.

Lemma to_code_failure_and_inverse_witness :
  to_code false invalid = AssertionFailed
  ∧ to_type "%"%char = map.
Proof.
  destruct to_code_failure_and_inverse as (Hfail & _ & Hinv & _). split.
  - apply Hfail. by split.
  - apply (Hinv false map "%"%char). reflexivity.
Defined.

(** X3. Every type has element multiplicity 1 or 2, and the types of
    multiplicity 2 are [map] and [attribute], both aggregates: a leaf always
    has multiplicity 1.  On the wire, the bytes that open an aggregate are
    exactly [*], [>], [~], [%] and [|], and those of multiplicity 2 are [%]
    and [|]. *)
Theorem aggregates_and_multiplicity :
  (∀ t, element_multiplicity t = 1 ∨ element_multiplicity t = 2)
  ∧ (∀ t, element_multiplicity t = 2 ↔ t = map ∨ t = attribute)
  ∧ (∀ t, is_aggregate t = false → element_multiplicity t = 1)
  ∧ (∀ c, is_aggregate (to_type c) = true
          ↔ c ∈ ["*"; ">"; "~"; "%"; "|"]%char)
  ∧ (∀ c, element_multiplicity (to_type c) = 2 ↔ c ∈ ["%"; "|"]%char).
Proof.
  split; [by intros []; auto|]. split.
  { intros t. split; [by destruct t; auto|by intros [-> | ->]]. }
  split; [by intros []|]. split.
  - intros c. split.
    + intros H. destruct c as [[] [] [] [] [] [] [] []];
        first [discriminate H | decide_by_computation].
    + intros H. repeat (apply elem_of_cons in H as [->|H]; [reflexivity|]).
      by apply elem_of_nil in H.
  - intros c. split.
    + intros H. destruct c as [[] [] [] [] [] [] [] []];
        first [discriminate H | decide_by_computation].
    + intros H. repeat (apply elem_of_cons in H as [->|H]; [reflexivity|]).
      by apply elem_of_nil in H.
Qed.

Lemma aggregates_and_multiplicity_witness :
  element_multiplicity blob_string = 1 ∧ is_aggregate (to_type "~"%char) = true.
Proof.
  destruct aggregates_and_multiplicity as (_ & _ & Hleaf & Hagg & _). split.
  - apply Hleaf. reflexivity.
  - apply Hagg. decide_by_computation.
Defined.

End TypeFacts.

(** ** How the queue operations compose *)

Section CompositionFacts.

Import Request Connection.

Lemma filter_bool_idemp {A : Type} (f : A → bool) (l : list A) :
  List.filter f (List.filter f l) = List.filter f l.
Proof.
  induction l as [|x l IH]; simpl; [done|].
  destruct (f x) eqn:Hx; simpl; [|done]. by rewrite Hx, IH.
Qed.

Lemma filter_bool_negb_nil {A : Type} (f : A → bool) (l : list A) :
  List.filter f (List.filter (λ x, negb (f x)) l) = [].
Proof.
  induction l as [|x l IH]; simpl; [done|].
  destruct (f x) eqn:Hx; simpl; [done|]. by rewrite Hx.
Qed.

Lemma filter_bool_filter {A : Type} (f g : A → bool) (l : list A) :
  List.filter f (List.filter g l) = List.filter (λ x, g x && f x) l.
Proof.
  induction l as [|x l IH]; simpl; [done|].
  destruct (g x); simpl; [|done]. destruct (f x); by rewrite IH.
Qed.

Lemma fold_mark_stop_lookup (l : list ptr) (h : gmap ptr req_info) (p : ptr) :
  foldl (λ h q, alter mark_stop q h) h l !! p = h !! p
  ∨ foldl (λ h q, alter mark_stop q h) h l !! p = mark_stop <$> h !! p.
Proof.
  destruct (decide (p ∈ l)).
  - right. by apply fold_alter_in.
  - left. by apply fold_alter_notin.
Qed.

(** Marking entries stopped changes neither of the two selection
    predicates. *)
Lemma test_after_mark_stop (f : req_info → bool) (l : list ptr)
    (c c' : connection) (p : ptr) :
  (∀ e, f (mark_stop e) = f e) →
  infos c' = foldl (λ h q, alter mark_stop q h) (infos c) l →
  test f c' p = test f c p.
Proof.
  intros Hf Hinfos. unfold test. rewrite Hinfos.
  destruct (fold_mark_stop_lookup l (infos c) p) as [-> | ->]; [done|].
  destruct (infos c !! p); simpl; [apply Hf|done].
Qed.

(** X4. No [cancel] resets the count of commands in flight or the buffers,
    touches the configuration, creates or destroys an entry, lengthens or
    reorders the queue, or opens the socket; an entry is at most marked
    stopped.  Cancelling the reception of events is the single call
    [event_channel_.cancel()], cancelling the reception of pushes the single
    call [push_channel_.cancel()]; both return 1 and leave queue, entries and
    socket alone. *)
Theorem cancel_never_resets (op : operation) (c : connection) :
  cfg_ (cancel op c).2 = cfg_ c
  ∧ read_buffer_ (cancel op c).2 = read_buffer_ c
  ∧ write_buffer_ (cancel op c).2 = write_buffer_ c
  ∧ cmds_ (cancel op c).2 = cmds_ c
  ∧ sublist (reqs_ (cancel op c).2) (reqs_ c)
  ∧ dom (infos (cancel op c).2) = dom (infos c)
  ∧ (∀ p, infos (cancel op c).2 !! p = infos c !! p
          ∨ infos (cancel op c).2 !! p = mark_stop <$> infos c !! p)
  ∧ calls c `prefix_of` calls (cancel op c).2
  ∧ (socket_is_open c = false → socket_is_open (cancel op c).2 = false)
  ∧ (op = receive_event ∨ op = receive_push →
     (cancel op c).1 = 1
     ∧ reqs_ (cancel op c).2 = reqs_ c
     ∧ infos (cancel op c).2 = infos c
     ∧ socket_ (cancel op c).2 = socket_ c
     ∧ length (new_calls c (cancel op c).2) = 1%nat)
  ∧ new_calls c (cancel receive_event c).2 = [channel_cancel event_channel_]
  ∧ new_calls c (cancel receive_push c).2 = [channel_cancel push_channel_].
Proof.
  assert (Hevent : new_calls c (cancel receive_event c).2
                   = [channel_cancel event_channel_]) by by apply new_calls_app.
  assert (Hpush : new_calls c (cancel receive_push c).2
                  = [channel_cancel push_channel_]) by by apply new_calls_app.
  revert Hevent Hpush.
  generalize (new_calls c (cancel receive_event c).2)
             (new_calls c (cancel receive_push c).2).
  intros ke kp -> ->.
  cut (cfg_ (cancel op c).2 = cfg_ c
  ∧ read_buffer_ (cancel op c).2 = read_buffer_ c
  ∧ write_buffer_ (cancel op c).2 = write_buffer_ c
  ∧ cmds_ (cancel op c).2 = cmds_ c
  ∧ sublist (reqs_ (cancel op c).2) (reqs_ c)
  ∧ dom (infos (cancel op c).2) = dom (infos c)
  ∧ (∀ p, infos (cancel op c).2 !! p = infos c !! p
          ∨ infos (cancel op c).2 !! p = mark_stop <$> infos c !! p)
  ∧ calls c `prefix_of` calls (cancel op c).2
  ∧ (socket_is_open c = false → socket_is_open (cancel op c).2 = false)
  ∧ (op = receive_event ∨ op = receive_push →
     (cancel op c).1 = 1
     ∧ reqs_ (cancel op c).2 = reqs_ c
     ∧ infos (cancel op c).2 = infos c
     ∧ socket_ (cancel op c).2 = socket_ c
     ∧ length (new_calls c (cancel op c).2) = 1%nat)).
  { intros (H1 & H2 & H3 & H4 & H5 & H6 & H7 & H8 & H9 & H10).
    repeat (split; [assumption|]). done. }
  destruct op.
  - rewrite cancel_exec_eq. cbn [fst snd cfg_ read_buffer_ write_buffer_ cmds_
      reqs_ infos calls].
    repeat (split; [done|]). split; [apply sublist_nil_l|].
    split; [apply dom_fold_alter|]. split; [apply fold_mark_stop_lookup|].
    split; [by eexists|]. split; [done|]. by intros [|].
  - pose proof (cancel_run_eq c) as Heq. cbv zeta in Heq. rewrite Heq.
    cbn [fst snd cfg_ read_buffer_ write_buffer_ cmds_ reqs_ infos calls].
    repeat (split; [done|]). split; [apply sublist_filter_bool|].
    split; [apply dom_fold_alter|]. split; [apply fold_mark_stop_lookup|].
    split; [by eexists|]. split; [|by intros [|]].
    intros _. unfold socket_is_open. cbn [socket_]. by destruct (socket_ c).
  - simpl. repeat (split; [done|]). split; [by left|].
    split; [by eexists|]. split; [done|]. intros _.
    repeat (split; [done|]). unfold new_calls. simpl.
    by rewrite drop_app_length.
  - simpl. repeat (split; [done|]). split; [by left|].
    split; [by eexists|]. split; [done|]. intros _.
    repeat (split; [done|]). unfold new_calls. simpl.
    by rewrite drop_app_length.
Qed.

Lemma cancel_never_resets_witness :
  socket_is_open (cancel run (make_connection Config.default)).2 = false
  ∧ reqs_ (cancel receive_push mixed_queue).2 = [0; 1; 2; 3]%nat.
Proof.
  split.
  - apply (cancel_never_resets run (make_connection Config.default)).
    reflexivity.
  - destruct (cancel_never_resets receive_push mixed_queue)
      as (_ & _ & _ & _ & _ & _ & _ & _ & _ & Hrecv & _).
    destruct Hrecv as (_ & Hq & _); [by right|]. rewrite Hq. reflexivity.
Defined.

(** X5. A second [cancel(run)] finds nothing left to drop: it cancels the
    four connection timers again and leaves the queue, every entry and the
    socket as the first call left them. *)
Theorem cancel_run_twice (c : connection) :
  let c1 := (cancel run c).2 in
  let c2 := (cancel run c1).2 in
  reqs_ c2 = reqs_ c1 ∧ infos c2 = infos c1 ∧ socket_ c2 = socket_ c1
  ∧ new_calls c1 c2 = run_timers.
Proof.
  intros c1 c2.
  assert (Hc1 : infos c1
    = foldl (λ h q, alter mark_stop q h) (infos c)
        (List.filter (λ p, negb (negb (closes_on_run_completion c p)))
                     (reqs_ c))
    ∧ reqs_ c1
      = List.filter (λ p, negb (closes_on_run_completion c p)) (reqs_ c)).
  { subst c1. pose proof (cancel_run_eq c) as Heq. cbv zeta in Heq.
    by rewrite Heq. }
  destruct Hc1 as [Hinfos Hq].
  assert (Hsame : ∀ p, closes_on_run_completion c1 p
                       = closes_on_run_completion c p).
  { intros p. by eapply test_after_mark_stop. }
  assert (Hnone : List.filter (closes_on_run_completion c1) (reqs_ c1) = []).
  { rewrite (filter_ext _ _ Hsame), Hq. apply filter_bool_negb_nil. }
  subst c2. pose proof (cancel_run_eq c1) as Heq. cbv zeta in Heq.
  rewrite negb_negb_filter, Hnone in Heq. rewrite Heq.
  cbn [snd reqs_ infos socket_ calls]. simpl foldl. simpl List.map.
  split.
  { rewrite (filter_ext _ (λ p, negb (closes_on_run_completion c p))), Hq.
    - apply filter_bool_idemp.
    - intros p. by rewrite Hsame. }
  split; [done|]. split.
  { subst c1. pose proof (cancel_run_eq c) as Heq1. cbv zeta in Heq1.
    rewrite Heq1. cbn [snd socket_]. by destruct (socket_ c). }
  apply new_calls_app. cbn [calls]. by rewrite app_nil_r.
Qed.

(** X6. [cancel_push_requests] is idempotent: run a second time it finds no
    entry to remove and makes no call. *)
Theorem cancel_push_requests_idempotent (c : connection) :
  cancel_push_requests (cancel_push_requests c) = cancel_push_requests c.
Proof.
  set (d := cancel_push_requests c).
  assert (Hd : reqs_ d = List.filter (λ p, negb (written_push c p)) (reqs_ c)
               ∧ infos d = infos c).
  { subst d. by rewrite cancel_push_requests_eq. }
  destruct Hd as [Hq Hinfos]. clearbody d.
  assert (Hsame : ∀ p, written_push d p = written_push c p).
  { intros p. unfold written_push, test. by rewrite Hinfos. }
  rewrite (cancel_push_requests_eq d).
  rewrite (filter_ext _ (λ p, negb (written_push c p)) 
             (λ p, f_equal negb (Hsame p))).
  rewrite (filter_ext _ _ Hsame), Hq.
  rewrite filter_bool_idemp, filter_bool_negb_nil, <- Hq. simpl.
  rewrite app_nil_r. by destruct d.
Qed.

(** X7. [cancel(run)] and [cancel_push_requests] can be run in either order:
    the queue that is left is the same, the entries that neither closes on
    run completion nor is a written request without responses, in their
    original order. *)
Theorem cancel_run_cleanup_commute (c : connection) :
  reqs_ (cancel_push_requests (cancel run c).2)
  = List.filter (λ p, negb (closes_on_run_completion c p)
                      && negb (written_push c p)) (reqs_ c)
  ∧ reqs_ (cancel run (cancel_push_requests c)).2
    = reqs_ (cancel_push_requests (cancel run c).2).
Proof.
  assert (Hleft : reqs_ (cancel_push_requests (cancel run c).2)
    = List.filter (λ p, negb (closes_on_run_completion c p)
                        && negb (written_push c p)) (reqs_ c)).
  { rewrite cancel_push_requests_eq. cbn [reqs_].
    pose proof (cancel_run_eq c) as Heq. cbv zeta in Heq. rewrite Heq.
    cbn [snd reqs_]. set (c1 := mk_connection _ _ _ _ _ _ _ _).
    assert (Hsame : ∀ p, written_push c1 p = written_push c p).
    { intros p. by eapply test_after_mark_stop. }
    rewrite (filter_ext _ (λ p, negb (written_push c p)));
      [|by intros p; rewrite Hsame].
    apply filter_bool_filter. }
  split; [exact Hleft|]. rewrite Hleft.
  pose proof (cancel_run_eq (cancel_push_requests c)) as Heq.
  cbv zeta in Heq. rewrite Heq. cbn [snd reqs_].
  rewrite cancel_push_requests_eq. cbn [reqs_].
  set (c1 := mk_connection _ _ _ _ _ _ _ _).
  assert (Hsame : ∀ p, closes_on_run_completion c1 p
                       = closes_on_run_completion c p) by done.
  rewrite (filter_ext _ (λ p, negb (closes_on_run_completion c p)));
    [|by intros p; rewrite Hsame].
  rewrite filter_bool_filter. apply filter_ext. intros p. apply andb_comm.
Qed.

(** X8. [cancel(run)] followed by [cancel(exec)] stops every entry that was
    queued, whichever of the two removes it, and leaves the queue empty; the
    second call returns the number of entries the first one kept. *)
Theorem cancel_run_then_exec (c : connection) :
  let c1 := (cancel run c).2 in
  (cancel exec c1).1
  = Z.of_nat (length (List.filter
                        (λ p, negb (closes_on_run_completion c p)) (reqs_ c)))
  ∧ reqs_ (cancel exec c1).2 = []
  ∧ (∀ p, p ∈ reqs_ c →
       infos (cancel exec c1).2 !! p = mark_stop <$> infos c !! p)
  ∧ (∀ p, p ∉ reqs_ c → infos (cancel exec c1).2 !! p = infos c !! p).
Proof.
  intros c1. rewrite cancel_exec_eq. cbn [fst snd reqs_ infos].
  assert (Hc1 : infos c1
    = foldl (λ h q, alter mark_stop q h) (infos c)
        (List.filter (λ p, negb (negb (closes_on_run_completion c p)))
                     (reqs_ c))
    ∧ reqs_ c1
      = List.filter (λ p, negb (closes_on_run_completion c p)) (reqs_ c)).
  { subst c1. pose proof (cancel_run_eq c) as Heq. cbv zeta in Heq.
    by rewrite Heq. }
  destruct Hc1 as [Hinfos Hq]. rewrite Hinfos, Hq, negb_negb_filter.
  split; [done|]. split; [done|]. split.
  - intros p Hp. destruct (closes_on_run_completion c p) eqn:Hcl.
    + rewrite fold_alter_notin.
      * apply fold_alter_in; [done|]. by apply elem_of_filter_bool.
      * rewrite elem_of_filter_bool, Hcl. by intros [_ ?].
    + rewrite fold_alter_in; [|done|].
      * rewrite fold_alter_notin; [done|].
        rewrite elem_of_filter_bool, Hcl. by intros [_ ?].
      * apply elem_of_filter_bool. by rewrite Hcl.
  - intros p Hp. rewrite !fold_alter_notin; [done| |];
      rewrite elem_of_filter_bool; by intros [? _].
Qed.

Lemma cancel_run_then_exec_witness :
  stop <$> infos (cancel exec (cancel run mixed_queue).2).2 !! 1%nat = Some true
  ∧ stop <$> infos (cancel exec (cancel run mixed_queue).2).2 !! 3%nat
    = Some true.
Proof.
  destruct (cancel_run_then_exec mixed_queue) as (_ & _ & Hin & _).
  split.
  - rewrite (Hin 1%nat); [vm_compute; reflexivity|decide_by_computation].
  - rewrite (Hin 3%nat); [vm_compute; reflexivity|decide_by_computation].
Defined.

End CompositionFacts.

(** ** More on coalescing and queueing *)

Section WriterFacts.

Import Request Connection.

(** With assertions compiled out a non-empty queue is coalesced whatever the
    write buffer holds. *)
Lemma coalesce_requests_ndebug (c : connection) :
  reqs_ c ≠ [] →
  coalesce_requests true c = Done (foldl coalesce_entry c (coalesced c)).
Proof.
  intros Hq. unfold coalesce_requests, BOOST_ASSERT.
  cbn [orb mbind outcome_bind].
  destruct (prefix_take (reqs_ c)
    (if Config.coalesce_requests (cfg_ c) then length (reqs_ c) else 1%nat))
    as [post Hpost].
  fold (coalesced c) in Hpost.
  assert (Hlen : length (coalesced c)
    = if Config.coalesce_requests (cfg_ c) then length (reqs_ c) else 1%nat).
  { unfold coalesced. rewrite length_take.
    destruct (Config.coalesce_requests _); [lia|].
    destruct (reqs_ c); [done|simpl; lia]. }
  rewrite <- Hlen.
  apply (for_loop_coalesce (coalesced c) [] post). exact Hpost.
Qed.

Lemma coalesce_requests_buffer_assert (c : connection) :
  write_buffer_ c ≠ "" → coalesce_requests false c = AssertionFailed.
Proof.
  intros Hb. unfold coalesce_requests, BOOST_ASSERT.
  by rewrite (bool_decide_false _ Hb).
Qed.

(** X9. The edge cases of [coalesce_requests].  With assertions compiled in,
    a write buffer that is not empty or an empty queue stops at the
    assertion.  With assertions compiled out, an empty queue is left alone
    when the connection coalesces, and [reqs_.at(0)] throws
    [std::out_of_range] when it does not; a queue that is not empty is
    coalesced behind whatever the write buffer already holds, and never
    throws. *)
Theorem coalesce_requests_edges (c : connection) :
  (write_buffer_ c ≠ "" → coalesce_requests false c = AssertionFailed)
  ∧ (reqs_ c = [] → coalesce_requests false c = AssertionFailed)
  ∧ (reqs_ c = [] →
     coalesce_requests true c
     = if Config.coalesce_requests (cfg_ c) then Done c else OutOfRange)
  ∧ (reqs_ c ≠ [] →
     ∃ c', coalesce_requests true c = Done c'
       ∧ write_buffer_ c'
         = write_buffer_ c
           +:+ foldr String.append "" (List.map (payload_at c) (coalesced c))
       ∧ ∀ ndebug, coalesce_requests ndebug c ≠ OutOfRange).
Proof.
  split; [|split; [|split]].
  - apply coalesce_requests_buffer_assert.
  - intros Hq. unfold coalesce_requests, BOOST_ASSERT.
    rewrite (bool_decide_true _ Hq). by destruct (bool_decide _).
  - intros Hq. unfold coalesce_requests, BOOST_ASSERT.
    cbn [orb mbind outcome_bind]. rewrite Hq.
    destruct (Config.coalesce_requests _); [done|].
    simpl. rewrite coalesce_step_out_of_range; [done|by rewrite Hq].
  - intros Hq. exists (foldl coalesce_entry c (coalesced c)).
    split; [by apply coalesce_requests_ndebug|].
    split; [by rewrite fold_coalesce_entry|].
    intros [|]; [by rewrite coalesce_requests_ndebug|].
    unfold coalesce_requests, BOOST_ASSERT. cbn [orb].
    destruct (bool_decide (write_buffer_ c = "")) eqn:Hb; [|done].
    apply bool_decide_eq_true in Hb. fold (BOOST_ASSERT false true).
    pose proof (coalesce_requests_eq false c Hb Hq) as Heq.
    unfold coalesce_requests, BOOST_ASSERT in Heq.
    rewrite (bool_decide_true _ Hb) in Heq. cbn [orb] in Heq.
    unfold BOOST_ASSERT. cbn [orb]. by rewrite Heq.
Qed.

Lemma coalesce_requests_edges_witness :
  coalesce_requests false (make_connection Config.default) = AssertionFailed
  ∧ coalesce_requests true (make_connection Config.default)
    = Done (make_connection Config.default)
  ∧ coalesce_requests false (set_write_buffer "x" two_queued) = AssertionFailed
  ∧ ∀ ndebug, coalesce_requests ndebug two_queued ≠ OutOfRange.
Proof.
  split; [|split; [|split]].
  - apply (coalesce_requests_edges (make_connection Config.default)).
    reflexivity.
  - destruct (coalesce_requests_edges (make_connection Config.default))
      as (_ & _ & Hempty & _). apply Hempty. reflexivity.
  - destruct (coalesce_requests_edges (set_write_buffer "x" two_queued))
      as (Hbuf & _). apply Hbuf. discriminate.
  - destruct (coalesce_requests_edges two_queued) as (_ & _ & _ & Hq).
    destruct Hq as (c' & _ & _ & Hnever); [discriminate|]. exact Hnever.
Defined.

Lemma payload_at_fold_coalesce (l : list ptr) (c : connection) (q : ptr) :
  payload_at (foldl coalesce_entry c l) q = payload_at c q.
Proof.
  revert c. induction l as [|p l IH]; intros c; simpl; [done|].
  by rewrite IH, payload_at_coalesce_entry.
Qed.

Lemma size_at_fold_coalesce (l : list ptr) (c : connection) (q : ptr) :
  size_at (foldl coalesce_entry c l) q = size_at c q.
Proof.
  revert c. induction l as [|p l IH]; intros c; simpl; [done|].
  by rewrite IH, size_at_coalesce_entry.
Qed.

(** X10. [coalesce_requests] does not skip what it has already written.
    Called again before the write buffer is cleared, it stops at the
    assertion when assertions are compiled in; with assertions compiled out
    it appends the same payloads a second time and counts their commands a
    second time. *)
Theorem coalesce_requests_again (ndebug : bool) (c c1 : connection) :
  write_buffer_ c = "" → reqs_ c ≠ [] →
  coalesce_requests ndebug c = Done c1 →
  (write_buffer_ c1 ≠ "" → coalesce_requests false c1 = AssertionFailed)
  ∧ ∃ c2, coalesce_requests true c1 = Done c2
      ∧ write_buffer_ c2 = write_buffer_ c1 +:+ write_buffer_ c1
      ∧ cmds_ c2
        = wrap (cmds_ c
                + 2 * foldr Z.add 0 (List.map (size_at c) (coalesced c))).
Proof.
  intros Hb Hq Hc. rewrite coalesce_requests_eq in Hc by done.
  injection Hc as <-. set (c1 := foldl coalesce_entry c (coalesced c)).
  assert (Hfields : reqs_ c1 = reqs_ c ∧ cfg_ c1 = cfg_ c
    ∧ write_buffer_ c1
      = foldr String.append "" (List.map (payload_at c) (coalesced c))
    ∧ cmds_ c1
      = wrap (cmds_ c + foldr Z.add 0 (List.map (size_at c) (coalesced c)))).
  { subst c1. rewrite fold_coalesce_entry. cbn [reqs_ cfg_ write_buffer_ cmds_].
    rewrite Hb. repeat (split; [done|]).
    apply fold_wrap_add. pose proof (coalesced_nonempty c Hq).
    by destruct (coalesced c). }
  destruct Hfields as (Hq1 & Hcfg1 & Hb1 & Hcmds1).
  assert (Hco : coalesced c1 = coalesced c).
  { unfold coalesced. by rewrite Hq1, Hcfg1. }
  split.
  { apply coalesce_requests_buffer_assert. }
  exists (foldl coalesce_entry c1 (coalesced c1)).
  split; [apply coalesce_requests_ndebug; by rewrite Hq1|].
  rewrite fold_coalesce_entry. cbn [write_buffer_ cmds_]. rewrite Hco.
  rewrite (map_ext _ _ (payload_at_fold_coalesce (coalesced c) c)).
  rewrite (map_ext _ _ (size_at_fold_coalesce (coalesced c) c)).
  split; [by rewrite Hb1|].
  rewrite fold_wrap_add, Hcmds1.
  - unfold wrap. rewrite Zplus_mod_idemp_l. f_equal. lia.
  - pose proof (coalesced_nonempty c Hq). by destruct (coalesced c).
Qed.

Lemma coalesce_requests_again_witness :
  ∃ c1 c2, coalesce_requests false two_queued = Done c1
    ∧ coalesce_requests false c1 = AssertionFailed
    ∧ coalesce_requests true c1 = Done c2
    ∧ cmds_ c2 = 4.
Proof.
  eexists (foldl coalesce_entry two_queued (coalesced two_queued)).
  destruct (coalesce_requests_again false two_queued
              (foldl coalesce_entry two_queued (coalesced two_queued)))
    as (Hfail & c2 & Hc2 & _ & Hcmds);
    [reflexivity | discriminate
    | apply coalesce_requests_eq; [reflexivity | discriminate] |].
  exists c2. split; [apply coalesce_requests_eq; [reflexivity | discriminate]|].
  split; [apply Hfail; vm_compute; discriminate|].
  split; [exact Hc2|]. rewrite Hcmds. reflexivity.
Defined.

(** X11. Once a whole live queue has been coalesced, every entry counts as
    written, so [cancel_push_requests] then drops exactly the requests that
    expect no response, and keeps the others in order. *)
Theorem coalesce_then_cleanup (ndebug : bool) (c c' : connection) :
  write_buffer_ c = "" → reqs_ c ≠ [] → queue_live c →
  Config.coalesce_requests (cfg_ c) = true →
  coalesce_requests ndebug c = Done c' →
  reqs_ (cancel_push_requests c')
  = List.filter (λ p, negb (size_at c p =? 0)) (reqs_ c)
  ∧ ∀ p, p ∈ reqs_ c → written <$> infos c' !! p = Some true.
Proof.
  intros Hb Hq Hlive Hcfg Hc. rewrite coalesce_requests_eq in Hc by done.
  injection Hc as <-.
  assert (Hall : coalesced c = reqs_ c).
  { unfold coalesced. rewrite Hcfg. apply firstn_all. }
  rewrite Hall. set (c' := foldl coalesce_entry c (reqs_ c)).
  assert (Hfields : reqs_ c' = reqs_ c
    ∧ infos c' = foldl (λ h q, alter mark_written q h) (infos c) (reqs_ c)).
  { subst c'. by rewrite fold_coalesce_entry. }
  destruct Hfields as [Hq' Hinfos].
  assert (Hin : ∀ p, p ∈ reqs_ c →
            infos c' !! p = mark_written <$> infos c !! p).
  { intros p Hp. rewrite Hinfos. by apply fold_alter_in. }
  unfold queue_live in Hlive. rewrite Forall_forall in Hlive.
  split.
  - rewrite cancel_push_requests_eq. cbn [reqs_]. rewrite Hq'.
    apply filter_ext_in. intros p Hp. apply list_elem_of_In in Hp.
    unfold written_push, test, size_at. rewrite (Hin p Hp).
    destruct (Hlive p Hp) as [e ->]. done.
  - intros p Hp. rewrite (Hin p Hp). by destruct (Hlive p Hp) as [e ->].
Qed.

Lemma coalesce_then_cleanup_witness :
  ∃ c', coalesce_requests false (set_write_buffer "" mixed_queue) = Done c'
    ∧ reqs_ (cancel_push_requests c') = [1; 2; 3]%nat.
Proof.
  eexists. split; [apply coalesce_requests_eq; [reflexivity|discriminate]|].
  destruct (coalesce_then_cleanup false (set_write_buffer "" mixed_queue)
              (foldl coalesce_entry (set_write_buffer "" mixed_queue)
                 (coalesced (set_write_buffer "" mixed_queue))))
    as [Hq _];
    [reflexivity | discriminate | decide_by_computation | reflexivity
    | apply coalesce_requests_eq; [reflexivity|discriminate] |].
  rewrite Hq. vm_compute. reflexivity.
Defined.

(** Queueing several entries in a row. *)
Lemma fold_add_request_info (l : list ptr) (c : connection) :
  foldl (λ c p, add_request_info p c) c l =
  {| socket_ := socket_ c; cfg_ := cfg_ c; read_buffer_ := read_buffer_ c;
     write_buffer_ := write_buffer_ c; cmds_ := cmds_ c;
     reqs_ := reqs_ c ++ l; infos := infos c;
     calls := calls c
              ++ (if socket_is_open c && (cmds_ c =? 0)
                     && bool_decide (write_buffer_ c = "")
                  then replicate (length l) (timer_cancel writer_timer_)
                  else []) |}.
Proof.
  revert c. induction l as [|p l IH]; intros c.
  { simpl. destruct (_ && _ && _); rewrite !app_nil_r; by destruct c. }
  simpl foldl. rewrite IH. unfold add_request_info.
  change (socket_is_open (set_reqs (reqs_ c ++ [p]) c)) with (socket_is_open c).
  cbn [cmds_ write_buffer_ set_reqs].
  destruct (socket_is_open c && (cmds_ c =? 0)
            && bool_decide (write_buffer_ c = "")) eqn:Hidle.
  - change (socket_is_open (invoke _ (set_reqs (reqs_ c ++ [p]) c)))
      with (socket_is_open c).
    cbn [socket_ cfg_ read_buffer_ write_buffer_ cmds_ reqs_ infos calls
         invoke set_reqs]. rewrite Hidle. simpl.
    by rewrite <- !app_assoc.
  - change (socket_is_open (set_reqs (reqs_ c ++ [p]) c))
      with (socket_is_open c).
    cbn [socket_ cfg_ read_buffer_ write_buffer_ cmds_ reqs_ infos calls
         set_reqs]. rewrite Hidle.
    by rewrite <- !app_assoc.
Qed.

(** X12. Entries queued one after the other end up behind the queue in the
    order they were added.  Nothing but the queue and the calls changes, so
    the wake condition stays what it was: on an idle open connection every
    single addition cancels the writer timer, otherwise none does. *)
Theorem add_request_info_many (l : list ptr) (c : connection) :
  let c' := foldl (λ c p, add_request_info p c) c l in
  reqs_ c' = reqs_ c ++ l
  ∧ infos c' = infos c ∧ cmds_ c' = cmds_ c
  ∧ write_buffer_ c' = write_buffer_ c ∧ socket_ c' = socket_ c
  ∧ (socket_is_open c = true → cmds_ c = 0 → write_buffer_ c = "" →
     new_calls c c' = replicate (length l) (timer_cancel writer_timer_))
  ∧ (socket_is_open c = false ∨ cmds_ c ≠ 0 ∨ write_buffer_ c ≠ "" →
     new_calls c c' = []).
Proof.
  intros c'. subst c'. rewrite fold_add_request_info.
  cbn [reqs_ infos cmds_ write_buffer_ socket_].
  repeat (split; [done|]). split.
  - intros Hs Hc Hb. apply new_calls_app. cbn [calls].
    by rewrite Hs, Hc, Hb.
  - intros Hnot. apply new_calls_app. cbn [calls].
    destruct Hnot as [Hs|[Hc|Hb]].
    + by rewrite Hs.
    + apply Z.eqb_neq in Hc. rewrite Hc. by rewrite andb_false_r.
    + rewrite (bool_decide_false _ Hb). by rewrite andb_false_r.
Qed.

Lemma add_request_info_many_witness :
  new_calls mixed_queue
    (foldl (λ c p, add_request_info p c) mixed_queue [7; 8]%nat)
  = [timer_cancel writer_timer_; timer_cancel writer_timer_]
  ∧ new_calls two_queued
      (foldl (λ c p, add_request_info p c) two_queued [7; 8]%nat)
    = [].
Proof.
  split.
  - apply (add_request_info_many [7; 8]%nat mixed_queue); reflexivity.
  - apply (add_request_info_many [7; 8]%nat two_queued). by left.
Defined.

Lemma add_request_info_wf (p : ptr) (c : connection) :
  p ∉ reqs_ c → is_Some (infos c !! p) → queue_wf c →
  queue_wf (add_request_info p c).
Proof.
  intros Hp Hlive [Hnd Hq].
  assert (Hfields : reqs_ (add_request_info p c) = reqs_ c ++ [p]
                    ∧ infos (add_request_info p c) = infos c).
  { unfold add_request_info. by destruct (_ && _ && _). }
  destruct Hfields as [Hq' Hinfos]. split.
  - rewrite Hq'. apply NoDup_app. split; [done|]. split.
    + intros x Hx Hx'. apply list_elem_of_singleton in Hx'. by subst.
    + apply NoDup_singleton.
  - unfold queue_live. rewrite Hq', Hinfos. apply Forall_app.
    split; [done|]. by apply Forall_singleton.
Qed.

(** X13. The queue operations of the connection keep the queue well formed:
    after any [cancel], after [cancel_push_requests], after a
    [coalesce_requests] that returns, and after [add_request_info] of a live
    pointer that is not queued yet, the pointers of the queue are live and
    pairwise distinct. *)
Theorem queue_wf_preserved (c : connection) :
  queue_wf c →
  (∀ op, queue_wf (cancel op c).2)
  ∧ queue_wf (cancel_push_requests c)
  ∧ (∀ ndebug c', coalesce_requests ndebug c = Done c' → queue_wf c')
  ∧ (∀ p, p ∉ reqs_ c → is_Some (infos c !! p) →
          queue_wf (add_request_info p c)).
Proof.
  intros Hwf. split; [|split; [|split]].
  - intros [| | |].
    + apply cancel_exec_wf.
    + by apply cancel_run_wf.
    + exact Hwf.
    + exact Hwf.
  - by apply cancel_push_requests_wf.
  - intros nd c' Hc. by eapply coalesce_requests_wf.
  - intros p Hp Hlive. by apply add_request_info_wf.
Qed.

Lemma queue_wf_preserved_witness :
  queue_wf mixed_queue
  ∧ queue_wf (cancel run mixed_queue).2
  ∧ queue_wf (cancel_push_requests mixed_queue).
Proof.
  assert (Hwf : queue_wf mixed_queue).
  { split; decide_by_computation. }
  destruct (queue_wf_preserved mixed_queue Hwf) as (Hcancel & Hclean & _).
  split; [exact Hwf|]. split; [apply Hcancel|exact Hclean].
Defined.

End WriterFacts.

(** ** The example [basic3.cpp] *)

(** The queue of commands satisfies what the example relies on. *)
#[global] Instance command_queue_laws :
  Basic3.RequestLaws (list Command.command).
Proof. by split. Qed.

Section Basic3Facts.

Import Command Basic3.

Context {R : Type} `{RequestOps R} `{!RequestLaws R} {response : Type}.

Lemma push_back_snoc (c : command) (args : list string) (reqs : list R)
    (r : R) :
  push_back c args (reqs ++ [r]) = Some (reqs ++ [push c args r]).
Proof.
  unfold push_back. rewrite reverse_snoc. by rewrite reverse_involutive.
Qed.

Lemma push_back_nil (c : command) (args : list string) :
  push_back (R := R) c args [] = None.
Proof. done. Qed.

(** X14. [prepare_next] never touches the requests that are queued: it
    appends one empty request when the queue holds at most one, and does
    nothing otherwise.  The queue it returns is never empty, and holds at
    least two requests when it held one before; on an empty queue it adds a
    single request only. *)
Theorem prepare_next_spec (reqs : list R) :
  reqs `prefix_of` prepare_next reqs
  ∧ length (prepare_next reqs)
    = (if (length reqs <=? 1)%nat then S (length reqs) else length reqs)
  ∧ prepare_next reqs ≠ []
  ∧ (reqs ≠ [] → (2 ≤ length (prepare_next reqs))%nat
                 ∧ prepare_next (prepare_next reqs) = prepare_next reqs)
  ∧ (∀ r, r ∈ prepare_next reqs → r ∈ reqs ∨ commands r = [])
  ∧ prepare_next (R := R) [] = [new_request].
Proof.
  unfold prepare_next. destruct reqs as [|r1 [|r2 reqs]]; simpl.
  - split; [by eexists|]. split; [done|]. split; [done|]. split; [done|].
    split; [|done]. intros r Hr. apply list_elem_of_singleton in Hr as ->.
    right. apply commands_new.
  - split; [by exists [new_request]|]. split; [done|]. split; [done|].
    split; [split; [lia|done]|]. split; [|done].
    intros r Hr. apply elem_of_cons in Hr as [->|Hr]; [left; by left|].
    apply list_elem_of_singleton in Hr as ->. right. apply commands_new.
  - split; [done|]. split; [done|]. split; [done|].
    split; [split; [lia|done]|]. split; [|done]. intros r Hr. by left.
Qed.

(** What [process_response] leaves of a queue [r :: rest] whose front
    request starts with [c]. *)
Lemma process_response_front (r : R) (rest : list R) (c : command)
    (cs : list command) (resp : response) :
  commands r = c :: cs →
  ∃ rest',
    process_response (r :: rest) resp = Some (c, resp, r :: rest')
    ∧ rest'
      = match c with
        | hello =>
            match reverse rest with
            | [] => [push ping [] new_request]
            | b :: before => reverse before ++ [push ping [] b]
            end
        | ping =>
            match reverse rest with
            | [] => [push quit [] new_request]
            | b :: before => reverse before ++ [push quit [] b]
            end
        | _ => rest
        end.
Proof.
  intros Hc. unfold process_response. rewrite Hc.
  assert (Hback : ∀ c',
    push_back c' [] (prepare_next (r :: rest))
    = Some (r :: match reverse rest with
                 | [] => [push c' [] new_request]
                 | b :: before => reverse before ++ [push c' [] b]
                 end)).
  { intros c'. destruct (reverse rest) as [|b before] eqn:Hrev.
    - apply (f_equal reverse) in Hrev. rewrite reverse_involutive in Hrev.
      subst rest. unfold prepare_next. simpl.
      apply (push_back_snoc c' [] [r] new_request).
    - apply (f_equal reverse) in Hrev. rewrite reverse_involutive in Hrev.
      rewrite reverse_cons in Hrev. subst rest. unfold prepare_next.
      rewrite bool_decide_false by done.
      replace (length (r :: reverse before ++ [b]) =? 1)%nat with false.
      2:{ symmetry. apply Nat.eqb_neq. simpl. rewrite length_app. simpl. lia. }
      simpl orb. cbv iota.
      apply (push_back_snoc c' [] (r :: reverse before) b). }
  destruct c; try (eexists; split; [reflexivity|reflexivity]).
  - rewrite Hback. eexists. split; reflexivity.
  - rewrite Hback. eexists. split; reflexivity.
Qed.


(** X15. [process_response] is undefined only on an empty queue or on a
    front request without commands.  Otherwise it reports the first command
    of the front request and leaves the front request as it is: after
    [hello] it queues [ping], after [ping] it queues [quit], both on the last
    request, which is a new one when the queue held only the front; after any
    other command the queue is unchanged.  The queue never gets shorter. *)
Theorem process_response_spec (reqs : list R) (resp : response) :
  (process_response reqs resp = None
   ↔ reqs = [] ∨ ∃ r rest, reqs = r :: rest ∧ commands r = [])
  ∧ (∀ c resp' reqs',
       process_response reqs resp = Some (c, resp', reqs') →
       resp' = resp
       ∧ head reqs' = head reqs
       ∧ (head reqs ≫= λ r, head (commands r)) = Some c
       ∧ (length reqs ≤ length reqs')%nat
       ∧ (c ≠ hello → c ≠ ping → reqs' = reqs)
       ∧ (c = hello → (last reqs' ≫= λ b, last (commands b)) = Some ping)
       ∧ (c = ping → (last reqs' ≫= λ b, last (commands b)) = Some quit)
       ∧ (length reqs = 1%nat → c = hello ∨ c = ping →
          ∃ k, reqs' = reqs ++ [push k [] new_request])).
Proof.
  split.
  - split.
    + unfold process_response. destruct reqs as [|r rest]; [by left|].
      destruct (commands r) as [|c cs] eqn:Hc; [right; by exists r, rest|].
      intros Hnone. destruct (process_response_front r rest c cs resp Hc)
        as (rest' & Hsome & _).
      unfold process_response in Hsome. rewrite Hc in Hsome. congruence.
    + intros [->|(r & rest & -> & Hc)]; [done|].
      unfold process_response. by rewrite Hc.
  - intros c resp' reqs' Hsome. destruct reqs as [|r rest]; [done|].
    destruct (commands r) as [|c0 cs] eqn:Hc.
    { unfold process_response in Hsome. by rewrite Hc in Hsome. }
    destruct (process_response_front r rest c0 cs resp Hc)
      as (rest' & Hsome' & Hrest).
    rewrite Hsome' in Hsome. injection Hsome as <- <- <-.
    split; [done|]. split; [done|]. split; [simpl; by rewrite Hc|].
    assert (Hlast : ∀ k b0 (before : list R),
      (last (r :: before ++ [push k [] b0]) ≫= λ b, last (commands b))
      = Some k).
    { intros k b0 before.
      change (r :: before ++ [push k [] b0])
        with ((r :: before) ++ [push k [] b0]).
      rewrite last_snoc. simpl. by rewrite commands_push, last_snoc. }
    destruct (reverse rest) as [|b before] eqn:Hrev;
      apply (f_equal reverse) in Hrev; rewrite reverse_involutive in Hrev;
      rewrite ?reverse_cons in Hrev; subst rest.
    + destruct c0; subst rest';
        repeat (split; [first [done | simpl; lia | by intros; exfalso
                              | by intros; apply (Hlast _ _ [])
                              | by intros; eexists]|]);
        first [by intros; eexists | by intros _ [|]].
    + destruct c0; subst rest';
        repeat (split; [first [done | simpl; rewrite ?length_app; simpl; lia
                              | by intros; exfalso
                              | by intros; apply Hlast]|]);
        intros Hlen; simpl in Hlen; rewrite length_app in Hlen;
        simpl in Hlen; lia.
Qed.

(** One request with a single command: it is written, its response is read
    and printed, and the request is popped; what is left is what
    [process_response] queued. *)
Lemma write_requests_single (fuel : nat) (r : R) (c : command)
    (resp : response) (input : list response)
    (trace : list (event (R := R))) :
  commands r = [c] →
  write_requests (S (S (S fuel))) [r] (resp :: input) trace
  = write_requests (S (S fuel))
      match c with
      | hello => [push ping [] new_request]
      | ping => [push quit [] new_request]
      | _ => []
      end
      input (trace ++ [written r; printed c resp]).
Proof.
  intros Hc.
  destruct (process_response_front r [] c [] resp Hc) as (rest' & Hp & Hrest).
  simpl in Hrest.
  change (write_requests (S (S (S fuel))) [r] (resp :: input) trace)
    with (match read_responses (S (S fuel)) [r] (resp :: input)
                  (trace ++ [written r]) with
          | (returned, _ :: rest, input1, trace1) =>
              write_requests (S (S fuel)) rest input1 trace1
          | (returned, [], input1, trace1) => (undefined, [], input1, trace1)
          | stopped => stopped
          end).
  assert (Hread : read_responses (S (S fuel)) [r] (resp :: input)
                    (trace ++ [written r])
                  = (returned, set_commands [] r :: rest', input,
                     (trace ++ [written r]) ++ [printed c resp])).
  { change (read_responses (S (S fuel)) [r] (resp :: input)
              (trace ++ [written r]))
      with (if bool_decide (commands r = [])
            then (returned, [r], resp :: input, trace ++ [written r])
            else match process_response [r] resp with
                 | None => (undefined, [r], resp :: input, trace ++ [written r])
                 | Some (c, resp', reqs1) =>
                     match reqs1 with
                     | [] => (undefined, reqs1, input, trace ++ [written r])
                     | r1 :: rest =>
                         match commands r1 with
                         | [] => (undefined, reqs1, input, trace ++ [written r])
                         | _ :: cs =>
                             read_responses (S fuel)
                               (set_commands cs r1 :: rest) input
                               ((trace ++ [written r]) ++ [printed c resp'])
                         end
                     end
                 end).
    rewrite bool_decide_false by (rewrite Hc; discriminate).
    rewrite Hp, Hc. simpl.
    by rewrite bool_decide_true by apply commands_set. }
  rewrite Hread, <- app_assoc. simpl app. rewrite Hrest. by destruct c.
Qed.

(** X16. Given the responses of the server, [ping] sends [HELLO 3], [PING]
    and [QUIT] as three requests of one command each, every one after the
    response to the one before has been read and printed; it reads exactly
    three responses, leaves the others, and returns with an empty queue. *)
Theorem ping_session_trace (r1 r2 r3 : response) (more : list response)
    (fuel : nat) :
  (7 ≤ fuel)%nat →
  ping_session fuel (r1 :: r2 :: r3 :: more)
  = (returned, [], more,
     [written (push hello ["3"] new_request); printed hello r1;
      written (push ping [] new_request); printed ping r2;
      written (push quit [] new_request); printed quit r3]).
Proof.
  intros Hfuel. unfold ping_session.
  rewrite (push_back_snoc hello ["3"] [] new_request). simpl app.
  do 7 (destruct fuel as [|fuel]; [lia|]). clear Hfuel.
  rewrite (write_requests_single _ _ hello)
    by (by rewrite commands_push, commands_new).
  rewrite (write_requests_single _ _ ping)
    by (by rewrite commands_push, commands_new).
  rewrite (write_requests_single _ _ quit)
    by (by rewrite commands_push, commands_new).
  reflexivity.
Qed.

Lemma write_requests_blocked (fuel : nat) (r : R) (c : command)
    (trace : list (event (R := R))) :
  commands r = [c] →
  write_requests (response := response) (S (S fuel)) [r] [] trace
  = (blocked, [r], [], trace ++ [written r]).
Proof.
  intros Hc. simpl. by rewrite bool_decide_false by (rewrite Hc; discriminate).
Qed.

(** X17. With fewer than three responses [ping] does not return: it
    waits, having written one request more than it got responses for, with
    that request still in the queue. *)
Theorem ping_session_blocks (input : list response) (fuel : nat) :
  (7 ≤ fuel)%nat → (length input < 3)%nat →
  ∃ r trace,
    ping_session fuel input = (blocked, [r], [], trace)
    ∧ length (commands r) = 1%nat
    ∧ length trace = (2 * length input + 1)%nat
    ∧ last trace = Some (written r).
Proof.
  intros Hfuel Hlen. unfold ping_session.
  rewrite (push_back_snoc hello ["3"] [] new_request). simpl app.
  do 7 (destruct fuel as [|fuel]; [lia|]). clear Hfuel.
  destruct input as [|r1 [|r2 [|r3 input]]]; [| | |simpl in Hlen; lia].
  - rewrite (write_requests_blocked _ _ hello)
      by (by rewrite commands_push, commands_new).
    eexists _, _. split; [reflexivity|].
    by rewrite commands_push, commands_new.
  - rewrite (write_requests_single _ _ hello)
      by (by rewrite commands_push, commands_new).
    rewrite (write_requests_blocked _ _ ping)
      by (by rewrite commands_push, commands_new).
    eexists _, _. split; [reflexivity|].
    by rewrite commands_push, commands_new.
  - rewrite (write_requests_single _ _ hello)
      by (by rewrite commands_push, commands_new).
    rewrite (write_requests_single _ _ ping)
      by (by rewrite commands_push, commands_new).
    rewrite (write_requests_blocked _ _ quit)
      by (by rewrite commands_push, commands_new).
    eexists _, _. split; [reflexivity|].
    by rewrite commands_push, commands_new.
Qed.
End Basic3Facts.

Section Basic3Witnesses.

Import Command Basic3.

Lemma prepare_next_spec_witness :
  (2 ≤ length (prepare_next [[hello]]))%nat
  ∧ prepare_next [[hello]; [ping]] = [[hello]; [ping]].
Proof.
  destruct (prepare_next_spec [[hello]]) as (_ & _ & _ & Hne & _).
  destruct Hne as [Hlen _]; [discriminate|]. split; [exact Hlen|].
  destruct (prepare_next_spec [[hello]; [ping]]) as (_ & _ & _ & Hne & _).
  destruct Hne as [_ Hidem]; [discriminate|]. exact Hidem.
Defined.

Lemma process_response_spec_witness :
  process_response (R := list command) [[hello]] tt
  = Some (hello, tt, [[hello]; [ping]])
  ∧ process_response (R := list command) ([] : list (list command)) tt = None.
Proof.
  destruct (process_response_spec (R := list command) [[hello]] tt)
    as [_ Hsome].
  destruct (process_response_spec (R := list command) [] tt) as [Hnone _].
  split; [|apply Hnone; by left].
  destruct (process_response (R := list command) [[hello]] tt)
    as [[[c resp'] reqs']|] eqn:Hp; [|vm_compute in Hp; discriminate Hp].
  destruct (Hsome c resp' reqs' eq_refl) as (-> & _ & Hc & _ & _ & _ & _ & Hnew).
  simpl in Hc. injection Hc as <-.
  destruct Hnew as [k Hk]; [reflexivity | by left |].
  vm_compute in Hp. by injection Hp as <-.
Defined.

Lemma ping_session_trace_witness :
  ping_session (R := list command) 7 [1; 2; 3; 4]%nat
  = (returned, [], [4%nat],
     [written [hello]; printed hello 1%nat;
      written [ping]; printed ping 2%nat;
      written [quit]; printed quit 3%nat]).
Proof.
  assert (Hfuel : (7 ≤ 7)%nat) by lia.
  exact (ping_session_trace (R := list command) 1%nat 2%nat 3%nat [4%nat] 7
           Hfuel).
Defined.

Lemma ping_session_blocks_witness :
  ∃ r trace,
    ping_session (R := list command) 7 [1%nat] = (blocked, [r], [], trace)
    ∧ length trace = 3%nat.
Proof.
  destruct (ping_session_blocks (R := list command) [1%nat] 7)
    as (r & trace & Hrun & _ & Hlen & _); [lia | simpl; lia |].
  exists r, trace. split; [exact Hrun|exact Hlen].
Defined.

End Basic3Witnesses.
